(** * PhotoShare backend: engagement metrics and image access

    A shallow embedding of the Django models ([api/models.py]), the view
    sets ([api/views.py]) and the photo serializers ([api/serializers.py]),
    followed by the properties of the engagement-metrics layer.

    Conventions of the embedding.
    - A database table is the list of its rows, in storage order.
    - Primary keys (UUIDs, user ids) are opaque integers.
    - [average_rating] is a [DecimalField(max_digits=3, decimal_places=2)]:
      it is stored as an integer number of hundredths.
    - Timestamps are seconds since the epoch. *)

From Stdlib Require Import ZArith String Ascii DecimalString DecimalNat Bool Lia Sorted
  Permutation List.
Import ListNotations.
Open Scope Z_scope.

(* ================================================================= *)
(** * Models *)
(* ================================================================= *)

Inductive Role := creator_role | consumer_role.

Definition Role_eqb (a b : Role) : bool :=
  match a, b with
  | creator_role, creator_role => true
  | consumer_role, consumer_role => true
  | _, _ => false
  end.

(** [request.user] when authenticated. *)
Record User := mkUser {
  user_id : Z;
  role : Role
}.

(** [class Photo]; [image] is [None] for an empty [ImageField] and
    otherwise carries [obj.image.url]. *)
Record Photo := mkPhoto {
  photo_id : Z;
  creator : Z;
  image : option string;
  views_count : Z;
  average_rating : Z;
  is_published : bool
}.

(** [class Rating], [unique_together = ['photo', 'user']]. *)
Record Rating := mkRating {
  rating_id : Z;
  rating_photo : Z;
  rating_user : Z;
  score : Z
}.

(** What a [GenericIPAddressField(null=True)] column holds: NULL, the
    text it was given, or, for a text with a colon, what
    [clean_ipv6_address] makes of it (the normalised IPv6 address, or
    the text itself when it is not one).  The normal form is not
    computed here: [address_ipv6 s] stands for it. *)
Inductive StoredAddress :=
| address_null
| address_text (s : string)
| address_ipv6 (s : string).

(** [class PhotoView]. *)
Record PhotoView := mkPhotoView {
  view_photo : Z;
  view_user : option Z;
  ip_address : StoredAddress;
  user_agent : string;
  viewed_at : Z
}.

Record DB := mkDB {
  photos : list Photo;
  ratings : list Rating;
  views : list PhotoView
}.

Inductive Status :=
| HTTP_200_OK
| HTTP_201_CREATED
| HTTP_204_NO_CONTENT
| HTTP_400_BAD_REQUEST
| HTTP_401_UNAUTHORIZED
| HTTP_404_NOT_FOUND
| HTTP_500_INTERNAL_SERVER_ERROR.

(* ----------------------------------------------------------------- *)
(** ** Query helpers *)

(** [Photo.objects.get(id=pk)]: [None] stands for [Photo.DoesNotExist]. *)
Definition get_photo (db : DB) (pk : Z) : option Photo :=
  find (fun p => photo_id p =? pk) (photos db).

(** [photo.ratings]: the reverse relation of [Rating.photo]. *)
Definition ratings_of (db : DB) (pk : Z) : list Rating :=
  filter (fun r => rating_photo r =? pk) (ratings db).

(** The lookup [user=u, photo=p]. *)
Definition rated_by (u pk : Z) (r : Rating) : bool :=
  (rating_user r =? u) && (rating_photo r =? pk).

(** [Rating.objects.filter(user=u, photo=p)]. *)
Definition ratings_by (db : DB) (u pk : Z) : list Rating :=
  filter (rated_by u pk) (ratings db).

Definition sum_scores (rs : list Rating) : Z :=
  fold_right (fun r acc => score r + acc) 0 rs.

Definition rating_count (db : DB) (pk : Z) : Z :=
  Z.of_nat (length (ratings_of db pk)).

Definition rating_sum (db : DB) (pk : Z) : Z :=
  sum_scores (ratings_of db pk).

(* ----------------------------------------------------------------- *)
(** ** Photo.update_average_rating *)

(** Quotient [n / d] rounded to the nearest integer, ties to even: the
    rounding of an IEEE division and of the [decimal] context. *)
Definition round_half_even (n d : Z) : Z :=
  let q := n / d in
  let r := n mod d in
  if 2 * r <? d then q
  else if d <? 2 * r then q + 1
  else if Z.even q then q else q + 1.

(** Number of decimal digits of [x >= 1]. *)
Fixpoint decimal_digits (fuel : nat) (x : Z) : Z :=
  match fuel with
  | O => 1
  | S fuel' => if x <? 10 then 1 else 1 + decimal_digits fuel' (x / 10)
  end.

(** [Avg('score')] is computed in floating point: the aggregate is the
    double nearest to [a / n] (53 significant bits, ties to even),
    returned here as the fraction [fn / fd] with [fd] a power of two.
    The sum and the count are taken to be exactly representable; the
    exponent range of doubles plays no part for means of scores. *)
Definition float_of_quotient (a n : Z) : Z * Z :=
  let K := Z.log2 n + 54 in
  let t := (a * 2 ^ K) / n in
  let s := Z.log2 t - 52 in
  (round_half_even (a * 2 ^ K) (n * 2 ^ s) * 2 ^ s, 2 ^ K).

(** [DecimalField.to_python] of a float:
    [self.context.create_decimal_from_float(value)] with
    [Context(prec=max_digits)], here [prec=3]: the float [fn / fd >= 1/10^J]
    is rounded, ties to even, to three significant digits.  The result
    is the coefficient [c] of the decimal [c * 10^(r - J)]. *)
Definition decimal_of_float (fn fd J : Z) : Z * Z :=
  let t := (fn * 10 ^ J) / fd in
  let r := Z.max 0 (decimal_digits (S (Z.to_nat (Z.log2 t))) t - 3) in
  (round_half_even (fn * 10 ^ J) (fd * 10 ^ r), r).

(** [value.quantize(Decimal('0.01'), context)] of the decimal
    [c * 10^d], in hundredths: further digits are rounded, ties to
    even. *)
Definition quantize_hundredths (c d : Z) : Z :=
  if 0 <=? d + 2 then c * 10 ^ (d + 2)
  else round_half_even c (10 ^ (- d - 2)).

(** The hundredths written for a positive mean [a / n]. *)
Definition stored_hundredths (a n : Z) : Z :=
  let '(fn, fd) := float_of_quotient a n in
  let J := Z.log2 fd + 2 in
  let '(c, r) := decimal_of_float fn fd J in
  quantize_hundredths c (r - J).

(** [aggregate(average=Avg('score'))] followed by [or 0.0], as the
    [DecimalField] prepares it for the database, in hundredths: [None]
    (no rows) and a zero mean become [0]; any other mean goes through
    the float, the three-digit context and the quantization, which are
    symmetric in the sign. *)
Definition average_of (rs : list Rating) : Z :=
  match rs with
  | [] => 0
  | _ =>
    let total := sum_scores rs in
    if total =? 0 then 0
    else Z.sgn total * stored_hundredths (Z.abs total) (Z.of_nat (length rs))
  end.

(** A value fits [max_digits=3, decimal_places=2] when it has at most
    three digits; otherwise quantizing raises and [save] fails. *)
Definition fits_decimal_3_2 (v : Z) : bool := Z.abs v <=? 999.

Definition set_average_rating (pk v : Z) (p : Photo) : Photo :=
  if photo_id p =? pk
  then mkPhoto (photo_id p) (creator p) (image p) (views_count p) v (is_published p)
  else p.

(** [self.save(update_fields=['average_rating'])]. *)
Definition save_average_rating (db : DB) (pk v : Z) : DB :=
  mkDB (map (set_average_rating pk v) (photos db)) (ratings db) (views db).

Definition update_average_rating (db : DB) (pk : Z) : option DB :=
  let v := average_of (ratings_of db pk) in
  if fits_decimal_3_2 v then Some (save_average_rating db pk v) else None.

(* ----------------------------------------------------------------- *)
(** ** Rating.save and update_or_create *)

Definition set_score (rid s : Z) (r : Rating) : Rating :=
  if rating_id r =? rid
  then mkRating (rating_id r) (rating_photo r) (rating_user r) s
  else r.

(** [super().save()] of a new row: rows are listed newest last. *)
Definition insert_rating (db : DB) (r : Rating) : DB :=
  mkDB (photos db) (ratings db ++ [r]) (views db).

Definition update_rating_score (db : DB) (rid s : Z) : DB :=
  mkDB (photos db) (map (set_score rid s) (ratings db)) (views db).

(** Outcome of a write path: the database it leaves behind and whether
    it ran to the end. *)
Inductive Saved :=
| saved (db : DB) (created : bool)
| failed (db : DB).

(** [Rating.save]: write the row, then [self.photo.update_average_rating()].
    On its own the two statements are not a unit: when the second
    raises, the row is written. *)
Definition Rating_save (db_written : DB) (pk : Z) (created : bool) : Saved :=
  match update_average_rating db_written pk with
  | Some db' => saved db' created
  | None => failed db_written
  end.

(** [with transaction.atomic()]: an exception inside the block rolls the
    database back to [db]. *)
Definition atomic (db : DB) (s : Saved) : Saved :=
  match s with
  | saved _ _ => s
  | failed _ => failed db
  end.

(** [Rating.objects.update_or_create(user=u, photo=p, defaults={'score': s})];
    [new_id] is the [uuid.uuid4()] default of a row to be created.  More
    than one matching row is [MultipleObjectsReturned].  The manager
    runs the lookup and the save in one transaction. *)
Definition update_or_create (db : DB) (new_id u pk s : Z) : Saved :=
  atomic db
    match ratings_by db u pk with
    | [] => Rating_save (insert_rating db (mkRating new_id pk u s)) pk true
    | [r] => Rating_save (update_rating_score db (rating_id r) s) pk false
    | _ => failed db
    end.

(* ----------------------------------------------------------------- *)
(** ** RatingViewSet *)

(** Python truthiness of [request.data.get('score')]: a missing value
    and [0] are falsy. *)
Definition truthy (v : option Z) : bool :=
  match v with
  | None => false
  | Some n => negb (n =? 0)
  end.

(** [RatingViewSet.rate_photo]. *)
Definition rate_photo (db : DB) (user : option User) (new_id : Z)
    (photo_param score_param : option Z) : DB * Status :=
  match user with
  | None => (db, HTTP_401_UNAUTHORIZED)
  | Some u =>
    match photo_param, score_param with
    | Some pk, Some s =>
      if negb (truthy score_param) then (db, HTTP_400_BAD_REQUEST)
      else
        match get_photo db pk with
        | None => (db, HTTP_404_NOT_FOUND)
        | Some photo =>
          match update_or_create db new_id (user_id u) (photo_id photo) s with
          | saved db' true => (db', HTTP_201_CREATED)
          | saved db' false => (db', HTTP_200_OK)
          | failed db' => (db', HTTP_500_INTERNAL_SERVER_ERROR)
          end
        end
    | _, _ => (db, HTTP_400_BAD_REQUEST)
    end
  end.

(** [RatingSerializer.validate_score]: [None] is the [ValidationError]. *)
Definition validate_score (value : Z) : option Z :=
  if (value <? 1) || (5 <? value) then None else Some value.

(** [RatingViewSet.create]: [RatingSerializer] validation, then
    [RatingSerializer.create]. *)
Definition create_rating (db : DB) (user : option User) (new_id : Z)
    (photo_param score_param : option Z) : DB * Status :=
  match user with
  | None => (db, HTTP_401_UNAUTHORIZED)
  | Some u =>
    match photo_param, score_param with
    | Some pk, Some s =>
      match get_photo db pk, validate_score s with
      | Some photo, Some s' =>
        match update_or_create db new_id (user_id u) (photo_id photo) s' with
        | saved db' _ => (db', HTTP_201_CREATED)
        | failed db' => (db', HTTP_500_INTERNAL_SERVER_ERROR)
        end
      | _, _ => (db, HTTP_400_BAD_REQUEST)
      end
    | _, _ => (db, HTTP_400_BAD_REQUEST)
    end
  end.

(** [RatingViewSet.destroy]: the inherited [instance.delete()]; [Rating]
    does not override [delete]. *)
Definition destroy_rating (db : DB) (user : option User) (rid : Z) : DB * Status :=
  match user with
  | None => (db, HTTP_401_UNAUTHORIZED)
  | Some _ =>
    match find (fun r => rating_id r =? rid) (ratings db) with
    | None => (db, HTTP_404_NOT_FOUND)
    | Some _ =>
      (mkDB (photos db)
            (filter (fun r => negb (rating_id r =? rid)) (ratings db))
            (views db),
       HTTP_204_NO_CONTENT)
    end
  end.

(** A rating operation of the public interface. *)
Inductive RatingOp :=
| OpRatePhoto (user : option User) (new_id : Z) (photo_param score_param : option Z)
| OpCreate (user : option User) (new_id : Z) (photo_param score_param : option Z)
| OpDestroy (user : option User) (rid : Z).

Definition apply_op (db : DB) (op : RatingOp) : DB :=
  match op with
  | OpRatePhoto u n p s => fst (rate_photo db u n p s)
  | OpCreate u n p s => fst (create_rating db u n p s)
  | OpDestroy u rid => fst (destroy_rating db u rid)
  end.

Definition apply_ops (db : DB) (ops : list RatingOp) : DB :=
  fold_left apply_op ops db.

(** The invariant of the rating aggregate for one photo. *)
Definition average_consistent (db : DB) (p : Photo) : Prop :=
  average_rating p = average_of (ratings_of db (photo_id p)).

(* ================================================================= *)
(** * PhotoViewSet *)
(* ================================================================= *)

(** The parts of the HTTP request the photo views read.  A query
    parameter that is absent or empty is [None]. *)
Record Request := mkRequest {
  user : option User;
  creator_param : option Z;
  exclude_param : option Z;
  HTTP_X_FORWARDED_FOR : option string;
  REMOTE_ADDR : option string;
  HTTP_USER_AGENT : option string
}.

Definition is_creator_user (u : option User) : bool :=
  match u with
  | Some u => Role_eqb (role u) creator_role
  | None => false
  end.

(** [PhotoViewSet.get_queryset]. *)
Definition get_queryset (db : DB) (request : Request) : list Photo :=
  let queryset := photos db in
  let queryset :=
    match creator_param request with
    | Some c => filter (fun p => (creator p =? c) && is_published p) queryset
    | None =>
      match user request with
      | Some u =>
        if Role_eqb (role u) creator_role
        then filter (fun p => is_published p || (creator p =? user_id u)) queryset
        else filter is_published queryset
      | None => filter is_published queryset
      end
    end in
  match exclude_param request with
  | Some e => filter (fun p => negb (photo_id p =? e)) queryset
  | None => queryset
  end.

(* ----------------------------------------------------------------- *)
(** ** retrieve: view tracking *)

Fixpoint before_comma (s : string) : string :=
  match s with
  | EmptyString => EmptyString
  | String c r => if Ascii.eqb c "," then EmptyString else String c (before_comma r)
  end.

(** [PhotoViewSet.get_client_ip]. *)
Definition get_client_ip (request : Request) : option string :=
  match HTTP_X_FORWARDED_FOR request with
  | Some (String c r) => Some (before_comma (String c r))
  | _ => REMOTE_ADDR request
  end.

Fixpoint has_colon (s : string) : bool :=
  match s with
  | EmptyString => false
  | String c r => Ascii.eqb c ":" || has_colon r
  end.

(** The value the [ip_address] field writes for [value]:
    [get_prep_value] passes a text with a colon through
    [clean_ipv6_address], and [adapt_ipaddressfield_value] is
    [value or None], so that the empty text is stored as NULL. *)
Definition GenericIPAddressField_get_db_prep_value (value : option string)
    : StoredAddress :=
  match value with
  | None => address_null
  | Some EmptyString => address_null
  | Some s => if has_colon s then address_ipv6 s else address_text s
  end.

Definition request_user_agent (request : Request) : string :=
  match HTTP_USER_AGENT request with
  | Some s => substring 0 255 s
  | None => EmptyString
  end.

Definition set_views_count (pk v : Z) (p : Photo) : Photo :=
  if photo_id p =? pk
  then mkPhoto (photo_id p) (creator p) (image p) v (average_rating p) (is_published p)
  else p.

(** A [retrieve] call between two of its database statements.  The
    handler works on its own [instance], read once by [get_object]. *)
Inductive Call :=
| Started (request : Request) (pk : Z) (now : Z)
| Loaded (request : Request) (instance : Photo) (now : Z)
| Tracked (instance : Photo)
| Finished (status : Status) (data : option Photo).

(** One database statement of [PhotoViewSet.retrieve]:
    [get_object] (a SELECT), [PhotoView.objects.create] (an INSERT),
    then [views_count += 1] on the instance and
    [save(update_fields=['views_count'])] (an UPDATE of that column
    to the instance's value). *)
Definition retrieve_step (db : DB) (c : Call) : DB * Call :=
  match c with
  | Started request pk now =>
    match find (fun p => photo_id p =? pk) (get_queryset db request) with
    | Some instance => (db, Loaded request instance now)
    | None => (db, Finished HTTP_404_NOT_FOUND None)
    end
  | Loaded request instance now =>
    let v := mkPhotoView (photo_id instance) (option_map user_id (user request))
               (GenericIPAddressField_get_db_prep_value (get_client_ip request))
               (request_user_agent request) now in
    (mkDB (photos db) (ratings db) (views db ++ [v]), Tracked instance)
  | Tracked instance =>
    let n := views_count instance + 1 in
    (mkDB (map (set_views_count (photo_id instance) n) (photos db))
          (ratings db) (views db),
     Finished HTTP_200_OK (Some (set_views_count (photo_id instance) n instance)))
  | Finished s d => (db, Finished s d)
  end.

(** [PhotoViewSet.retrieve] run without interruption. *)
Definition retrieve (db : DB) (request : Request) (pk now : Z) : DB * Call :=
  let '(db1, c1) := retrieve_step db (Started request pk now) in
  let '(db2, c2) := retrieve_step db1 c1 in
  retrieve_step db2 c2.

(** [n] calls that run one after the other. *)
Fixpoint retrieve_all (db : DB) (calls : list (Request * Z)) (pk : Z) : DB :=
  match calls with
  | [] => db
  | (request, now) :: rest => retrieve_all (fst (retrieve db request pk now)) rest pk
  end.

(** Concurrent handlers: the server runs the statement of the call the
    schedule names next. *)
Fixpoint step_at (db : DB) (calls : list Call) (i : nat) : DB * list Call :=
  match calls, i with
  | [], _ => (db, [])
  | c :: rest, O => let '(db', c') := retrieve_step db c in (db', c' :: rest)
  | c :: rest, S j => let '(db', rest') := step_at db rest j in (db', c :: rest')
  end.

Fixpoint run (db : DB) (calls : list Call) (schedule : list nat) : DB * list Call :=
  match schedule with
  | [] => (db, calls)
  | i :: rest => let '(db', calls') := step_at db calls i in run db' calls' rest
  end.

Definition completed (c : Call) : bool :=
  match c with
  | Finished HTTP_200_OK _ => true
  | _ => false
  end.

Definition views_of (db : DB) (pk : Z) : list PhotoView :=
  filter (fun v => view_photo v =? pk) (views db).

(** [views_count] as stored for the photo, [0] when there is no row. *)
Definition stored_views_count (db : DB) (pk : Z) : Z :=
  match get_photo db pk with
  | Some p => views_count p
  | None => 0
  end.

(* ----------------------------------------------------------------- *)
(** ** trending *)

(** [Count('views', filter=Q(views__viewed_at__gte=week_ago))]. *)
Definition recent_views (db : DB) (week_ago : Z) (p : Photo) : Z :=
  Z.of_nat (length (filter (fun v => (view_photo v =? photo_id p) && (week_ago <=? viewed_at v))
                           (views db))).

Section OrderBy.
Context {A : Type} (key : A -> Z).

Fixpoint insert_desc (x : A) (l : list A) : list A :=
  match l with
  | [] => [x]
  | y :: r => if key y <=? key x then x :: y :: r else y :: insert_desc x r
  end.

(** [order_by('-key')]: descending by the key alone.  The query names
    no further column: rows with equal keys keep the order in which
    they reach the sort. *)
Definition order_by_desc (l : list A) : list A :=
  fold_right insert_desc [] l.

(** [a] may come before [b] in a descending result. *)
Definition desc (a b : A) : Prop := key b <= key a.

End OrderBy.

Definition timedelta_days (d : Z) : Z := d * 86400.
Definition timedelta_hours (h : Z) : Z := h * 3600.

(** [annotate(recent_views=Count('views', ...))] joins the photos to
    their views and groups the rows on the photo's primary key; the
    database forms the groups by walking that key, so the annotated
    rows reach the ordering by ascending [id], whatever the order in
    which the photos were stored. *)
Definition group_by_id (l : list Photo) : list Photo :=
  order_by_desc (fun p => - photo_id p) l.


(** [PhotoViewSet.trending]: the rows that are serialized, in order. *)
Definition trending (db : DB) (request : Request) (now : Z) : list Photo :=
  let week_ago := now - timedelta_days 7 in
  firstn 20 (order_by_desc (recent_views db week_ago)
                           (group_by_id (get_queryset db request))).

(** The ranking key of [trending] at time [now]. *)
Definition recent_view_count (db : DB) (now : Z) (p : Photo) : Z :=
  recent_views db (now - timedelta_days 7) p.

(* ================================================================= *)
(** * Photo serializers: the image field *)
(* ================================================================= *)

(** Python's [sub in s]. *)
Definition contains (sub s : string) : bool :=
  match index 0 sub s with
  | Some _ => true
  | None => false
  end.

(** [s.lstrip('/')]. *)
Fixpoint lstrip_slash (s : string) : string :=
  match s with
  | String c r => if Ascii.eqb c "/" then lstrip_slash r else s
  | EmptyString => EmptyString
  end.

(** [s.split('/', 1)[1]], used when [s] contains a slash. *)
Fixpoint after_first_slash (s : string) : string :=
  match s with
  | String c r => if Ascii.eqb c "/" then r else after_first_slash r
  | EmptyString => EmptyString
  end.

(** Keyword arguments of the call to [generate_blob_sas]. *)
Record SasArguments := mkSasArguments {
  account_name : string;
  container_name : string;
  blob_name : string;
  account_key : string;
  permission_read : bool;
  expiry : Z
}.

Section Serializers.
(** [settings.AZURE_ACCOUNT_NAME], [settings.AZURE_CONTAINER] and
    [settings.AZURE_ACCOUNT_KEY]. *)
Variables AZURE_ACCOUNT_NAME AZURE_CONTAINER AZURE_ACCOUNT_KEY : string.

(** [urllib.parse.urlparse(url).path] of the standard library and
    [azure.storage.blob.generate_blob_sas] of the Azure SDK: the
    serializers call them, their code is not part of the project. *)
Variable urlparse_path : string -> string.
Variable generate_blob_sas : SasArguments -> string.

Definition blob_name_of (url : string) : string :=
  let blob_path := lstrip_slash (urlparse_path url) in
  if contains "/" blob_path then after_first_slash blob_path else blob_path.

(** The arguments [get_image] signs with at time [utcnow]. *)
Definition sas_arguments (url : string) (utcnow : Z) : SasArguments :=
  mkSasArguments AZURE_ACCOUNT_NAME AZURE_CONTAINER (blob_name_of url)
                 AZURE_ACCOUNT_KEY true (utcnow + timedelta_hours 1).

(** [PhotoListSerializer.get_image]; [None] is JSON [null]. *)
Definition PhotoListSerializer_get_image (obj : Photo) (utcnow : Z) : option string :=
  match image obj with
  | None => None
  | Some url =>
    if contains "blob.core.windows.net" url
    then Some (url ++ "?" ++ generate_blob_sas (sas_arguments url utcnow))%string
    else Some url
  end.

(** [PhotoDetailSerializer.get_image]: the same body, written again. *)
Definition PhotoDetailSerializer_get_image (obj : Photo) (utcnow : Z) : option string :=
  match image obj with
  | None => None
  | Some url =>
    if contains "blob.core.windows.net" url
    then
      let sas_token := generate_blob_sas (sas_arguments url utcnow) in
      Some (url ++ "?" ++ sas_token)%string
    else Some url
  end.
End Serializers.

(* ----------------------------------------------------------------- *)
(** ** The URL layout the specification describes *)

Definition is_digit (c : ascii) : bool :=
  let n := nat_of_ascii c in (48 <=? n)%nat && (n <=? 57)%nat.

Definition is_hex_digit (c : ascii) : bool :=
  let n := nat_of_ascii c in
  is_digit c || ((97 <=? n)%nat && (n <=? 102)%nat) || ((65 <=? n)%nat && (n <=? 70)%nat).

Fixpoint string_forallb (f : ascii -> bool) (s : string) : bool :=
  match s with
  | EmptyString => true
  | String c r => f c && string_forallb f r
  end.

(** [strip_prefix p s = Some r] when [s = p ++ r]. *)
Fixpoint strip_prefix (p s : string) : option string :=
  match p, s with
  | EmptyString, _ => Some s
  | String a p', String b s' => if Ascii.eqb a b then strip_prefix p' s' else None
  | String _ _, EmptyString => None
  end.

Fixpoint span_digits (s : string) : string * string :=
  match s with
  | String c r =>
    if is_digit c then let '(d, t) := span_digits r in (String c d, t)
    else (EmptyString, s)
  | EmptyString => (EmptyString, EmptyString)
  end.

Definition nonempty (s : string) : bool :=
  match s with
  | EmptyString => false
  | String _ _ => true
  end.

(** [url] reads [<base>?expires=<decimal digits>&sig=<hex digits>]. *)
Definition has_signed_url_form (base url : string) : bool :=
  match strip_prefix (base ++ "?expires=")%string url with
  | None => false
  | Some r =>
    let '(e, t) := span_digits r in
    nonempty e &&
    match strip_prefix "&sig=" t with
    | None => false
    | Some m => nonempty m && string_forallb is_hex_digit m
    end
  end.

(* ================================================================= *)
(** * Signer *)
(* ================================================================= *)

Inductive Verdict := Valid | Expired | Invalid.

Record SignedAccessToken := mkToken {
  resource_path : string;
  issued_at : Z;
  expires_at : Z;
  signature : N
}.

Section Signer.
(** The keyed message-authentication code and the shared secret. *)
Variable MAC : string -> string -> N.
Variable secret : string.

(** Modelled from the spec: the Signer's [canonicalize], which the
    project's sources do not contain.  Path and expiry are joined by a
    line feed; the expiry is in decimal. *)
Definition canonicalize (path : string) (expires : Z) : string :=
  (path ++ String (ascii_of_nat 10) (DecimalString.NilZero.string_of_int (Z.to_int expires)))%string.

(** Modelled from the spec: the Signer's [Issue], which the project's
    sources do not contain (they obtain a token from the Azure SDK).
    [expires_at = now + ttl] and the signature is the MAC of the
    canonical form of path and expiry. *)
Definition Issue (now : Z) (path : string) (ttl : Z) : SignedAccessToken :=
  mkToken path now (now + ttl) (MAC secret (canonicalize path (now + ttl))).

(** Modelled from the spec: the Signer's [Verify], which the project's
    sources do not contain (the storage service checks the token).
    [Expired] when [now > expires_at], whatever the signature;
    [Invalid] when the recomputed MAC differs from the one supplied;
    [Valid] otherwise. *)
Definition Verify (now : Z) (path : string) (expires : Z) (sig : N) : Verdict :=
  if expires <? now then Expired
  else if N.eqb (MAC secret (canonicalize path expires)) sig then Valid
  else Invalid.
End Signer.

(** The signature with bit [i] inverted. *)
Definition flip_bit (sig : N) (i : N) : N := N.lxor sig (N.shiftl 1 i).

(* ================================================================= *)
(** * Auxiliary definitions for the statements *)
(* ================================================================= *)

Definition Saved_db (s : Saved) : DB :=
  match s with
  | saved db _ => db
  | failed db => db
  end.

(** A rating of photo [pk] by a user other than [u]. *)
Definition rated_by_other (u pk : Z) (r : Rating) : bool :=
  (rating_photo r =? pk) && negb (rating_user r =? u).

Definition ratings_by_others (db : DB) (u pk : Z) : list Rating :=
  filter (rated_by_other u pk) (ratings db).

(** A score of one digit; averages of such scores fit the column of
    [average_rating]. *)
Definition score_fits (s : Z) : Prop := -9 <= s <= 9.

Definition scores_fit (rs : list Rating) : Prop :=
  Forall (fun r => score_fits (score r)) rs.

(** Primary key of the rating table. *)
Definition rating_ids_unique (db : DB) : Prop :=
  NoDup (map rating_id (ratings db)).

(** Primary key of the photo table. *)
Definition photo_ids_unique (db : DB) : Prop :=
  NoDup (map photo_id (photos db)).

(* ----------------------------------------------------------------- *)
(** ** Sample data and the orders and invariants the statements use *)

Definition sample_photo : Photo := mkPhoto 1 10 None 0 0 true.
Definition sample_db : DB := mkDB [sample_photo] [] [].
Definition sample_user : User := mkUser 7 consumer_role.

Definition anonymous_request : Request :=
  mkRequest None None None None None None.

(** No photo's counter is ahead of its recorded views. *)
Definition counted (db : DB) : Prop :=
  forall p, In p (photos db) ->
    views_count p <= Z.of_nat (length (views_of db (photo_id p))).

(** The same for the instance a handler holds: a handler that has
    written its view owns one recorded view more than it has counted. *)
Definition call_counted (db : DB) (c : Call) : Prop :=
  match c with
  | Loaded _ instance _ =>
    views_count instance <= Z.of_nat (length (views_of db (photo_id instance)))
  | Tracked instance =>
    views_count instance + 1 <= Z.of_nat (length (views_of db (photo_id instance)))
  | _ => True
  end.

Definition log_grows (db db' : DB) : Prop :=
  forall q, (length (views_of db q) <= length (views_of db' q))%nat.

(** The handlers of a list of requests for photo [pk], none started. *)
Definition start_calls (calls : list (Request * Z)) (pk : Z) : list Call :=
  map (fun c => Started (fst c) pk (snd c)) calls.


(** Two unviewed photos, stored with the larger id first. *)
Definition tie_db : DB :=
  mkDB [mkPhoto 2 10 None 0 0 true; mkPhoto 1 10 None 0 0 true] [] [].

(** An unviewed photo stored before one that was viewed once. *)
Definition viewed_photo : Photo := mkPhoto 2 10 None 1 0 true.
Definition trend_db : DB :=
  mkDB [sample_photo; viewed_photo] []
       [mkPhotoView 2 None address_null EmptyString 900].

Definition creator_user : User := mkUser 10 creator_role.
Definition draft_photo : Photo := mkPhoto 5 10 None 0 0 false.
Definition draft_db : DB := mkDB [sample_photo; draft_photo] [] [].
Definition creator_request : Request :=
  mkRequest (Some creator_user) None None None None None.
Definition consumer_request : Request :=
  mkRequest (Some sample_user) None None None None None.

Fixpoint after_double_slash (s : string) : string :=
  match s with
  | String a r =>
    match r with
    | String b t =>
      if Ascii.eqb a "/" && Ascii.eqb b "/" then t else after_double_slash r
    | EmptyString => EmptyString
    end
  | EmptyString => EmptyString
  end.

Fixpoint from_first_slash (s : string) : string :=
  match s with
  | String c r => if Ascii.eqb c "/" then s else from_first_slash r
  | EmptyString => EmptyString
  end.

(** The path of a URL [scheme://host/path], for the sample photos. *)
Definition sample_urlparse_path (url : string) : string :=
  from_first_slash (after_double_slash url).

(** A sample SDK: a token laid out as a shared access signature, with
    the expiry under [se], the permission under [sp] and the signature
    under [sig]. *)
Definition sample_generate_blob_sas (a : SasArguments) : string :=
  ("se=" ++ NilZero.string_of_int (Z.to_int (expiry a)) ++
   "&sp=" ++ (if permission_read a then "r" else "") ++
   "&sr=b&sig=" ++ blob_name a)%string.

Definition azure_photo : Photo :=
  mkPhoto 3 10 (Some "https://acct.blob.core.windows.net/media/photos/a.jpg"%string)
          0 0 true.

Definition cdn_photo : Photo :=
  mkPhoto 4 10 (Some "https://cdn.example.com/media/photos/a.jpg"%string) 0 0 true.

(** A sample MAC for the examples: it is not a cryptographic one. *)
Definition sample_MAC (key msg : string) : N :=
  N.of_nat (String.length key + 2 * String.length msg).

(* ================================================================= *)
(** * Permissions *)
(* ================================================================= *)

Inductive Method := GET | HEAD | OPTIONS | POST | PUT | PATCH | DELETE.

(** [permissions.SAFE_METHODS]. *)
Definition SAFE_METHODS (m : Method) : bool :=
  match m with
  | GET | HEAD | OPTIONS => true
  | _ => false
  end.

(** [request.user.is_authenticated]. *)
Definition is_authenticated (u : option User) : bool :=
  match u with
  | Some _ => true
  | None => false
  end.

(** [class Comment]. *)
Record Comment := mkComment {
  comment_id : Z;
  comment_photo : Z;
  comment_user : Z;
  content : string;
  parent_comment : option Z;
  comment_created_at : Z;
  comment_updated_at : Z;
  is_edited : bool;
  is_deleted : bool
}.

(** The objects the view sets hand to [has_object_permission]. *)
Inductive Instance :=
| PhotoInstance (p : Photo)
| CommentInstance (c : Comment)
| RatingInstance (r : Rating)
| UserInstance (u : User).

(** [owner == request.user], where [owner] is a user's primary key; the
    anonymous user equals nobody. *)
Definition same_user (owner : Z) (u : option User) : bool :=
  match u with
  | Some u => owner =? user_id u
  | None => false
  end.

(** [IsCreatorUser.has_permission]. *)
Definition IsCreatorUser_has_permission (method : Method) (u : option User) : bool :=
  if SAFE_METHODS method then true
  else is_authenticated u && is_creator_user u.

(** [IsOwnerOrReadOnly.has_object_permission]: comments and ratings
    have a [user] attribute, photos a [creator], users neither. *)
Definition IsOwnerOrReadOnly_has_object_permission
    (method : Method) (u : option User) (obj : Instance) : bool :=
  if SAFE_METHODS method then true
  else
    match obj with
    | CommentInstance c => same_user (comment_user c) u
    | RatingInstance r => same_user (rating_user r) u
    | PhotoInstance p => same_user (creator p) u
    | UserInstance _ => false
    end.

Inductive Permission :=
| IsAuthenticated
| IsAuthenticatedOrReadOnly
| IsCreatorUser
| IsOwnerOrReadOnly.

(** [self.action] of a view set. *)
Inductive Action :=
| action_list
| action_create
| action_retrieve
| action_update
| action_partial_update
| action_destroy
| action_extra.

(** [PhotoViewSet.get_permissions]. *)
Definition PhotoViewSet_get_permissions (a : Action) : list Permission :=
  match a with
  | action_create => [IsAuthenticated; IsCreatorUser]
  | action_update | action_partial_update | action_destroy =>
    [IsAuthenticated; IsOwnerOrReadOnly]
  | _ => [IsAuthenticatedOrReadOnly]
  end.

(** [CommentViewSet.get_permissions]. *)
Definition CommentViewSet_get_permissions (a : Action) : list Permission :=
  match a with
  | action_update | action_partial_update | action_destroy =>
    [IsAuthenticated; IsOwnerOrReadOnly]
  | action_create => [IsAuthenticated]
  | _ => [IsAuthenticatedOrReadOnly]
  end.

(** [RatingViewSet.get_permissions]. *)
Definition RatingViewSet_get_permissions (a : Action) : list Permission :=
  match a with
  | action_create | action_update | action_partial_update | action_destroy =>
    [IsAuthenticated]
  | _ => [IsAuthenticatedOrReadOnly]
  end.

(** [has_permission] of each class; a class that does not define it
    allows. *)
Definition has_permission (perm : Permission) (method : Method) (u : option User) : bool :=
  match perm with
  | IsAuthenticated => is_authenticated u
  | IsAuthenticatedOrReadOnly => SAFE_METHODS method || is_authenticated u
  | IsCreatorUser => IsCreatorUser_has_permission method u
  | IsOwnerOrReadOnly => true
  end.

Definition has_object_permission (perm : Permission) (method : Method)
    (u : option User) (obj : Instance) : bool :=
  match perm with
  | IsOwnerOrReadOnly => IsOwnerOrReadOnly_has_object_permission method u obj
  | _ => true
  end.

(** A request on an object passes when every class of the list allows
    the request and allows the object. *)
Definition permitted (perms : list Permission) (method : Method)
    (u : option User) (obj : Instance) : bool :=
  forallb (fun perm => has_permission perm method u) perms &&
  forallb (fun perm => has_object_permission perm method u obj) perms.

(** A request without an object (list, create). *)
Definition permitted_request (perms : list Permission) (method : Method)
    (u : option User) : bool :=
  forallb (fun perm => has_permission perm method u) perms.

(** The HTTP method the router maps to a writing action. *)
Definition writing_action (a : Action) (m : Method) : Prop :=
  (a = action_update /\ m = PUT) \/
  (a = action_partial_update /\ m = PATCH) \/
  (a = action_destroy /\ m = DELETE).

(* ================================================================= *)
(** * Comments *)
(* ================================================================= *)

(** [CommentViewSet.queryset]. *)
Definition CommentViewSet_queryset (comments : list Comment) : list Comment :=
  filter (fun c => negb (is_deleted c)) comments.

(** The row [instance.save()] writes once [is_deleted] is set: every
    column from the instance, and [updated_at] (an [auto_now] field)
    set to the time of the save. *)
Definition mark_deleted (now : Z) (c : Comment) : Comment :=
  mkComment (comment_id c) (comment_photo c) (comment_user c) (content c)
            (parent_comment c) (comment_created_at c) now (is_edited c) true.

(** [CommentViewSet.perform_destroy]: [instance.is_deleted = True] and
    [instance.save()], which writes the instance over its row. *)
Definition perform_destroy (comments : list Comment) (instance : Comment) (now : Z)
    : list Comment :=
  map (fun c => if comment_id c =? comment_id instance then mark_deleted now instance else c)
      comments.

Inductive DestroyResponse :=
| destroyed_204
| unauthorized_401
| forbidden_403
| not_found_404.

(** [DELETE /comments/<pk>/]: permissions of the request, [get_object]
    on the queryset, permissions of the object, [perform_destroy]. *)
Definition CommentViewSet_destroy (comments : list Comment) (u : option User)
    (pk now : Z) : list Comment * DestroyResponse :=
  if negb (permitted_request (CommentViewSet_get_permissions action_destroy) DELETE u)
  then (comments, unauthorized_401)
  else
    match find (fun c => comment_id c =? pk) (CommentViewSet_queryset comments) with
    | None => (comments, not_found_404)
    | Some instance =>
      if permitted (CommentViewSet_get_permissions action_destroy) DELETE u
                   (CommentInstance instance)
      then (perform_destroy comments instance now, destroyed_204)
      else (comments, forbidden_403)
    end.

(** [order_by('created_at')]. *)
Definition order_by_created_at (comments : list Comment) : list Comment :=
  order_by_desc (fun c => - comment_created_at c) comments.

(** [PhotoViewSet.comments]: the rows that are serialized, in order. *)
Definition PhotoViewSet_comments (comments : list Comment) (photo : Photo) : list Comment :=
  order_by_created_at
    (filter (fun c => (comment_photo c =? photo_id photo) && negb (is_deleted c) &&
                      match parent_comment c with None => true | Some _ => false end)
            comments).

(** [PhotoListSerializer.get_comment_count] and
    [PhotoDetailSerializer.get_comment_count]. *)
Definition get_comment_count (comments : list Comment) (obj : Photo) : nat :=
  length (filter (fun c => (comment_photo c =? photo_id obj) && negb (is_deleted c)) comments).

Definition is_reply_to (pk : Z) (c : Comment) : bool :=
  match parent_comment c with
  | Some parent => parent =? pk
  | None => false
  end.

(** [CommentSerializer.get_reply_count]. *)
Definition get_reply_count (comments : list Comment) (obj : Comment) : nat :=
  length (filter (fun c => is_reply_to (comment_id obj) c && negb (is_deleted c)) comments).

(** [CommentAdmin.content_preview]. *)
Definition content_preview (c : Comment) : string :=
  if (50 <? String.length (content c))%nat
  then (substring 0 50 (content c) ++ "...")%string
  else content c.

(** Primary key of the comment table. *)
Definition comment_ids_unique (comments : list Comment) : Prop :=
  NoDup (map comment_id comments).

(* ================================================================= *)
(** * Further serializer fields *)
(* ================================================================= *)

(** Value of [user_rating]; [Rating.objects.get] raises when several
    rows match. *)
Inductive UserRating :=
| user_rating_null
| user_rating_score (s : Z)
| user_rating_multiple_objects.

(** [PhotoDetailSerializer.get_user_rating]. *)
Definition get_user_rating (db : DB) (obj : Photo) (u : option User) : UserRating :=
  match u with
  | Some u =>
    match ratings_by db (user_id u) (photo_id obj) with
    | [] => user_rating_null
    | [rating] => user_rating_score (score rating)
    | _ => user_rating_multiple_objects
    end
  | None => user_rating_null
  end.

(** [UserSerializer.get_photo_count]. *)
Definition UserSerializer_get_photo_count (db : DB) (obj : User) : nat :=
  length (filter (fun p => creator p =? user_id obj) (photos db)).

(** [UserDetailSerializer.get_photo_count]. *)
Definition UserDetailSerializer_get_photo_count (db : DB) (obj : User) : nat :=
  length (filter is_published (filter (fun p => creator p =? user_id obj) (photos db))).

(** [RatingViewSet.get_queryset]; an absent or empty parameter is [None]. *)
Definition RatingViewSet_get_queryset (db : DB) (photo_param user_param : option Z)
    : list Rating :=
  let queryset := ratings db in
  let queryset :=
    match photo_param with
    | Some pk => filter (fun r => rating_photo r =? pk) queryset
    | None => queryset
    end in
  match user_param with
  | Some u => filter (fun r => rating_user r =? u) queryset
  | None => queryset
  end.

(* ================================================================= *)
(** * Photo.save: the slug *)
(* ================================================================= *)

(** [f"{base_slug}-{counter}"]. *)
Definition numbered_slug (base_slug : string) (counter : nat) : string :=
  (base_slug ++ "-" ++ NilZero.string_of_uint (Nat.to_uint counter))%string.

Definition slug_exists (slugs : list string) (slug : string) : bool :=
  existsb (String.eqb slug) slugs.

(** The [while Photo.objects.filter(slug=slug).exists()] loop of
    [Photo.save], over the slugs of the table; [fuel] bounds the number
    of tests, [None] when it runs out. *)
Fixpoint slug_loop (fuel : nat) (slugs : list string) (base_slug slug : string)
    (counter : nat) : option string :=
  match fuel with
  | O => None
  | S fuel' =>
    if slug_exists slugs slug
    then slug_loop fuel' slugs base_slug (numbered_slug base_slug counter) (S counter)
    else Some slug
  end.

(** The slug [Photo.save] gives a photo that has none; [base_slug] is
    [slugify(self.title)]. *)
Definition new_slug (slugs : list string) (base_slug : string) : option string :=
  slug_loop (S (length slugs)) slugs base_slug base_slug 1.

(** The slugs the loop tries, in order: the base, then the numbered ones. *)
Definition slug_candidate (base_slug : string) (k : nat) : string :=
  match k with
  | O => base_slug
  | S _ => numbered_slug base_slug k
  end.

(* ================================================================= *)
(** * Invariants and orders the further statements use *)
(* ================================================================= *)

(** [unique_together = ['photo', 'user']]. *)
Definition unique_together (db : DB) : Prop :=
  forall u pk, (length (ratings_by db u pk) <= 1)%nat.

(** Every photo's stored average is the one its ratings give. *)
Definition averages_consistent (db : DB) : Prop :=
  forall p, In p (photos db) -> average_consistent db p.

(** The validators of [Rating.score]. *)
Definition scores_valid (db : DB) : Prop :=
  Forall (fun r => 1 <= score r <= 5) (ratings db).

Definition new_id_of (op : RatingOp) : list Z :=
  match op with
  | OpRatePhoto _ n _ _ => [n]
  | OpCreate _ n _ _ => [n]
  | OpDestroy _ _ => []
  end.

(** The ids the operations bring for the rows they may create. *)
Definition new_ids (ops : list RatingOp) : list Z :=
  flat_map new_id_of ops.

Definition is_destroy (op : RatingOp) : bool :=
  match op with
  | OpDestroy _ _ => true
  | _ => false
  end.

(** The columns of a photo that view tracking does not write. *)
Definition untracked_columns (p : Photo) : Z * Z * option string * Z * bool :=
  (photo_id p, creator p, image p, average_rating p, is_published p).

(** [pre] is a prefix of [s]. *)
Definition is_prefix (pre s : string) : Prop :=
  exists rest, s = (pre ++ rest)%string.

Fixpoint has_comma (s : string) : bool :=
  match s with
  | EmptyString => false
  | String c r => Ascii.eqb c "," || has_comma r
  end.

Fixpoint has_slash (s : string) : bool :=
  match s with
  | EmptyString => false
  | String c r => Ascii.eqb c "/" || has_slash r
  end.

(* ================================================================= *)
(** * PhotoCreateSerializer.validate_image *)
(* ================================================================= *)

Fixpoint has_dot (s : string) : bool :=
  match s with
  | EmptyString => false
  | String c r => Ascii.eqb c "." || has_dot r
  end.

(** [name.split('.')[-1]]: the text after the last dot, the whole name
    when it has no dot. *)
Fixpoint last_segment (s : string) : string :=
  match s with
  | EmptyString => EmptyString
  | String c r =>
    if Ascii.eqb c "." then last_segment r
    else if has_dot r then last_segment r
    else s
  end.

Definition lower_ascii (c : ascii) : ascii :=
  let n := nat_of_ascii c in
  if (65 <=? n)%nat && (n <=? 90)%nat then ascii_of_nat (n + 32) else c.

(** [s.lower()], on the letters A to Z. *)
Fixpoint lower (s : string) : string :=
  match s with
  | EmptyString => EmptyString
  | String c r => String (lower_ascii c) (lower r)
  end.

Definition allowed_extensions : list string :=
  ["jpg"; "jpeg"; "png"; "gif"; "webp"]%string.

Inductive ImageValidation :=
| image_accepted
| image_too_large
| image_type_not_supported (ext : string).

(** [PhotoCreateSerializer.validate_image] on a file of the given name
    and size in bytes. *)
Definition validate_image (name : string) (size : Z) : ImageValidation :=
  if 10 * 1024 * 1024 <? size then image_too_large
  else
    let ext := lower (last_segment name) in
    if existsb (String.eqb ext) allowed_extensions then image_accepted
    else image_type_not_supported ext.

(** Further sample data. *)
Definition browser_request : Request :=
  mkRequest (Some sample_user) None None (Some "203.0.113.7, 10.0.0.1"%string)
            (Some "10.0.0.1"%string) (Some "Mozilla/5.0"%string).

Definition sample_comment : Comment :=
  mkComment 50 1 7 "Nice shot" None 900 900 false false.
Definition sample_reply : Comment :=
  mkComment 51 1 10 "Thanks" (Some 50) 950 950 false false.
Definition sample_comments : list Comment := [sample_comment; sample_reply].

Definition lookalike_photo : Photo :=
  mkPhoto 6 10 (Some "https://cdn.example.com/a.jpg?from=blob.core.windows.net"%string)
          0 0 true.

(* ================================================================= *)
(** * Ratings: upsert *)
(* ================================================================= *)

Lemma get_photo_id db pk p : get_photo db pk = Some p -> photo_id p = pk.
Proof.
  unfold get_photo. intros H. apply find_some in H. destruct H as [_ H].
  now apply Z.eqb_eq.
Qed.

Lemma update_average_rating_ratings db pk db' :
  update_average_rating db pk = Some db' -> ratings db' = ratings db.
Proof.
  unfold update_average_rating.
  destruct (fits_decimal_3_2 _); intros H; inversion H; reflexivity.
Qed.

Lemma Rating_save_saved dbw pk c db' c' :
  Rating_save dbw pk c = saved db' c' ->
  update_average_rating dbw pk = Some db' /\ c' = c.
Proof.
  unfold Rating_save. destruct (update_average_rating dbw pk); intros H;
    inversion H; auto.
Qed.

(** A successful upsert is an insert when the pair had no rating and an
    update of the one row it had; each is followed by the recomputation. *)
Lemma update_or_create_saved db n u pk s db' c :
  update_or_create db n u pk s = saved db' c ->
  (ratings_by db u pk = [] /\ c = true /\
   update_average_rating (insert_rating db (mkRating n pk u s)) pk = Some db') \/
  (exists r, ratings_by db u pk = [r] /\ c = false /\
   update_average_rating (update_rating_score db (rating_id r) s) pk = Some db').
Proof.
  unfold update_or_create, atomic.
  destruct (ratings_by db u pk) as [|r [|r' l]]; [| |discriminate].
  - destruct (Rating_save _ pk true) as [d b|d] eqn:E; [|discriminate].
    intros H; inversion H; subst. apply Rating_save_saved in E.
    destruct E as [E ->]. left. auto.
  - destruct (Rating_save _ pk false) as [d b|d] eqn:E; [|discriminate].
    intros H; inversion H; subst. apply Rating_save_saved in E.
    destruct E as [E ->]. right. exists r. auto.
Qed.

Lemma sum_scores_bounds rs :
  scores_fit rs ->
  -9 * Z.of_nat (length rs) <= sum_scores rs <= 9 * Z.of_nat (length rs).
Proof.
  induction 1 as [|r rs Hr _ IH]; simpl length; simpl sum_scores.
  - simpl. lia.
  - unfold score_fits in Hr. lia.
Qed.

(** The stored value is within half a hundredth of the mean. *)
Lemma round_half_even_nearest n d :
  0 < d -> 2 * Z.abs (n - round_half_even n d * d) <= d.
Proof.
  intros Hd. unfold round_half_even.
  pose proof (Z.div_mod n d ltac:(lia)) as E.
  pose proof (Z.mod_pos_bound n d Hd) as B.
  set (q := n / d) in *. set (r := n mod d) in *.
  destruct (2 * r <? d) eqn:E1; [apply Z.ltb_lt in E1; nia|].
  apply Z.ltb_ge in E1.
  destruct (d <? 2 * r) eqn:E2; [apply Z.ltb_lt in E2; nia|].
  apply Z.ltb_ge in E2.
  destruct (Z.even q); nia.
Qed.

Lemma decimal_digits_pos fuel : forall x, 1 <= decimal_digits fuel x.
Proof.
  induction fuel as [|fuel IH]; intros x; cbn [decimal_digits]; [lia|].
  destruct (x <? 10); [lia|]. specialize (IH (x / 10)). lia.
Qed.

Lemma decimal_digits_lower fuel : forall x,
  1 <= x -> 10 ^ (decimal_digits fuel x - 1) <= x.
Proof.
  induction fuel as [|fuel IH]; intros x Hx; cbn [decimal_digits].
  - simpl. lia.
  - destruct (x <? 10) eqn:E; [simpl; lia|].
    apply Z.ltb_ge in E.
    pose proof (decimal_digits_pos fuel (x / 10)) as Hp.
    assert (H1 : 1 <= x / 10) by (apply Z.div_le_lower_bound; lia).
    specialize (IH (x / 10) H1).
    replace (1 + decimal_digits fuel (x / 10) - 1)
      with (1 + (decimal_digits fuel (x / 10) - 1)) by lia.
    rewrite Z.pow_add_r by lia. change (10 ^ 1) with 10.
    pose proof (Z.mul_div_le x 10 ltac:(lia)). lia.
Qed.

(** The double nearest to [a / n] is within one part in [2^53] of it. *)
Lemma float_of_quotient_spec a n :
  1 <= a -> 1 <= n ->
  exists K m s,
    float_of_quotient a n = (m * 2 ^ s, 2 ^ K) /\
    0 <= K /\ 0 <= s /\ 0 < m /\
    2 ^ 53 * Z.abs (m * 2 ^ s * n - a * 2 ^ K) <= a * 2 ^ K.
Proof.
  intros Ha Hn. unfold float_of_quotient.
  set (K := Z.log2 n + 54). set (P := a * 2 ^ K).
  set (t := P / n). set (s := Z.log2 t - 52).
  pose proof (Z.log2_nonneg n) as Hl.
  assert (HK : 0 <= K) by (subst K; lia).
  assert (H2K : 2 ^ 53 * n < 2 ^ K).
  { subst K. replace (Z.log2 n + 54) with (53 + Z.succ (Z.log2 n)) by lia.
    rewrite Z.pow_add_r by lia.
    pose proof (Z.log2_spec n ltac:(lia)) as [_ Hs].
    assert (0 < 2 ^ 53) by (apply Z.pow_pos_nonneg; lia). nia. }
  assert (HP : 2 ^ 53 * n <= P).
  { subst P. assert (0 < 2 ^ K) by (apply Z.pow_pos_nonneg; lia). nia. }
  assert (Ht : 2 ^ 53 <= t).
  { subst t. apply Z.div_le_lower_bound; lia. }
  assert (Hlt : 53 <= Z.log2 t).
  { rewrite <- (Z.log2_pow2 53) by lia. now apply Z.log2_le_mono. }
  assert (Hs : 0 <= s) by (subst s; lia).
  assert (Hts : 2 ^ s * 2 ^ 52 <= t).
  { rewrite <- Z.pow_add_r by lia. replace (s + 52) with (Z.log2 t) by (subst s; lia).
    apply Z.log2_spec. assert (0 < 2 ^ 53) by (apply Z.pow_pos_nonneg; lia). lia. }
  assert (Hnt : n * t <= P) by (subst t; apply Z.mul_div_le; lia).
  assert (H2s : 0 < 2 ^ s) by (apply Z.pow_pos_nonneg; lia).
  set (Q := n * 2 ^ s).
  assert (HQ : 0 < Q) by (subst Q; nia).
  pose proof (round_half_even_nearest P Q HQ) as R.
  set (m := round_half_even P Q) in *.
  assert (HQP : Q * 2 ^ 52 <= P) by (subst Q; nia).
  exists K, m, s. split; [reflexivity|]. repeat split; auto.
  - assert (0 < 2 ^ 52) by (apply Z.pow_pos_nonneg; lia). nia.
  - replace (m * 2 ^ s * n - a * 2 ^ K) with (- (P - m * Q)) by (subst P Q; ring).
    rewrite Z.abs_opp. fold P.
    change (2 ^ 53) with (2 * 2 ^ 52).
    assert (0 < 2 ^ 52) by (apply Z.pow_pos_nonneg; lia). nia.
Qed.

Lemma decimal_of_float_spec fn fd J :
  0 < fd -> 100 * fd <= fn * 10 ^ J ->
  exists c r,
    decimal_of_float fn fd J = (c, r) /\ 0 <= r /\
    100 * (fd * 10 ^ r) <= fn * 10 ^ J /\
    2 * Z.abs (fn * 10 ^ J - c * (fd * 10 ^ r)) <= fd * 10 ^ r.
Proof.
  intros Hfd HJ. unfold decimal_of_float.
  set (P := fn * 10 ^ J) in *. set (t := P / fd).
  set (D := decimal_digits (S (Z.to_nat (Z.log2 t))) t).
  set (r := Z.max 0 (D - 3)).
  assert (Hr : 0 <= r) by (subst r; lia).
  assert (Ht : 100 <= t) by (subst t; apply Z.div_le_lower_bound; lia).
  assert (Hft : fd * t <= P) by (subst t; apply Z.mul_div_le; lia).
  assert (Hrt : 100 * 10 ^ r <= t).
  { subst r. destruct (Z.max_spec 0 (D - 3)) as [[H1 ->]|[H1 ->]].
    - pose proof (decimal_digits_lower (S (Z.to_nat (Z.log2 t))) t ltac:(lia)) as L.
      fold D in L. replace (D - 1) with (2 + (D - 3)) in L by lia.
      rewrite Z.pow_add_r in L by lia. change (10 ^ 2) with 100 in L. exact L.
    - simpl. lia. }
  assert (H10 : 0 < 10 ^ r) by (apply Z.pow_pos_nonneg; lia).
  exists (round_half_even P (fd * 10 ^ r)), r. split; [reflexivity|].
  split; auto. split; [nia|].
  apply round_half_even_nearest. nia.
Qed.

Lemma pow10_pos e : 0 <= e -> 0 < 10 ^ e.
Proof. intros. apply Z.pow_pos_nonneg; lia. Qed.

(** What the three roundings leave of [a / n], in one statement. *)
Lemma stored_hundredths_spec a n :
  1 <= a -> 1 <= n ->
  exists fn fd c r J,
    stored_hundredths a n = quantize_hundredths c (r - J) /\
    0 < fd /\ 0 < fn /\ 0 <= r /\ 0 <= J /\
    2 ^ 53 * Z.abs (fn * n - a * fd) <= a * fd /\
    100 * (fd * 10 ^ r) <= fn * 10 ^ J /\
    2 * Z.abs (fn * 10 ^ J - c * (fd * 10 ^ r)) <= fd * 10 ^ r.
Proof.
  intros Ha Hn.
  destruct (float_of_quotient_spec a n Ha Hn)
    as (K & m & s & Ef & HK & Hs & Hm & HA).
  assert (H2K : 0 < 2 ^ K) by (apply Z.pow_pos_nonneg; lia).
  assert (H2s : 0 < 2 ^ s) by (apply Z.pow_pos_nonneg; lia).
  set (fn := m * 2 ^ s) in *. set (fd := 2 ^ K) in *.
  set (J := Z.log2 fd + 2).
  assert (EJ : J = K + 2) by (subst J fd; rewrite Z.log2_pow2 by lia; lia).
  assert (Hfn : 0 < fn) by (subst fn; nia).
  assert (HJ : 100 * fd <= fn * 10 ^ J).
  { rewrite EJ, Z.pow_add_r by lia. change (10 ^ 2) with 100.
    assert (2 ^ K <= 10 ^ K) by (apply Z.pow_le_mono_l; lia).
    fold fd in H. nia. }
  destruct (decimal_of_float_spec fn fd J H2K HJ) as (c & r & Ed & Hr & B1 & B2).
  exists fn, fd, c, r, J. split.
  - unfold stored_hundredths. rewrite Ef. fold J. rewrite Ed. reflexivity.
  - repeat split; auto. lia.
Qed.

Lemma float_below a n fn fd E :
  0 < fd -> 0 < n -> 0 <= a -> 1000000 <= E -> forall k, 0 <= k <= 10 ->
  E * Z.abs (fn * n - a * fd) <= a * fd ->
  a <= k * n -> 1000 * fn <= (1000 * k + 1) * fd.
Proof.
  intros Hfd Hn Ha HE k Hk HA Hak.
  assert (H0 : E * (fn * n - a * fd) <= E * Z.abs (fn * n - a * fd))
    by (apply Z.mul_le_mono_nonneg_l; lia).
  assert (H1 : E * (fn * n) <= (E + 1) * (a * fd)) by lia.
  assert (H2a : a * fd <= k * n * fd) by (apply Z.mul_le_mono_nonneg_r; lia).
  assert (H2 : (E + 1) * (a * fd) <= (E + 1) * (k * n * fd))
    by (apply Z.mul_le_mono_nonneg_l; lia).
  assert (H3 : (E * fn) * n <= ((E + 1) * k * fd) * n).
  { replace (E * fn * n) with (E * (fn * n)) by ring.
    replace ((E + 1) * k * fd * n) with ((E + 1) * (k * n * fd)) by ring. lia. }
  assert (H4 : E * fn <= (E + 1) * k * fd)
    by (apply (Z.mul_le_mono_pos_r _ _ n); lia).
  assert (H5 : k * fd <= 10 * fd) by (apply Z.mul_le_mono_nonneg_r; lia).
  assert (H6 : 0 <= k * fd) by (apply Z.mul_nonneg_nonneg; lia).
  destruct (Z_le_gt_dec (1000 * fn) ((1000 * k + 1) * fd)) as [|Hgt]; [assumption|].
  exfalso.
  assert (H7 : E * ((1000 * k + 1) * fd + 1) <= E * (1000 * fn))
    by (apply Z.mul_le_mono_nonneg_l; lia).
  assert (H8 : E * fd <= 1000000 * fd -> False).
  { intros H9. assert (1000000 * fd <= E * fd) by (apply Z.mul_le_mono_nonneg_r; lia).
    nia. }
  apply H8. nia.
Qed.

(** Either the three digits kept stand before the hundredths (the value is
    then 10.0 or more), or quantizing drops [w] further digits ([T = 10^w]). *)
Lemma quantize_cases c r J fd fn :
  0 < fd -> 0 < fn -> 0 <= r -> 0 <= J ->
  100 * (fd * 10 ^ r) <= fn * 10 ^ J ->
  2 * Z.abs (fn * 10 ^ J - c * (fd * 10 ^ r)) <= fd * 10 ^ r ->
  (10 * fd <= fn /\ 1000 <= quantize_hundredths c (r - J)) \/
  (exists T, 1 <= T /\ fd <= fn * T /\
     2 * Z.abs (100 * T * fn - c * fd) <= fd /\
     ((T = 1 /\ quantize_hundredths c (r - J) = c) \/
      (10 <= T /\ 2 * Z.abs (c - quantize_hundredths c (r - J) * T) <= T))).
Proof.
  intros Hfd Hfn Hr HJ B1 B2.
  pose proof (pow10_pos r Hr) as HU. pose proof (pow10_pos J HJ) as HW.
  set (U := 10 ^ r) in *. set (W := 10 ^ J) in *.
  assert (HfU : 0 < fd * U) by (apply Z.mul_pos_pos; lia).
  assert (Hc : 100 <= c).
  { assert (199 * (fd * U) <= 2 * c * (fd * U)) by lia.
    assert (199 <= 2 * c) by (apply (Z.mul_le_mono_pos_r _ _ (fd * U)); lia). lia. }
  unfold quantize_hundredths.
  destruct (Z_le_gt_dec 1 (r - J + 2)) as [He|He].
  - left.
    assert (E1 : (0 <=? r - J + 2) = true) by (apply Z.leb_le; lia).
    rewrite E1.
    assert (HX : 10 <= 10 ^ (r - J + 2)).
    { change 10 with (10 ^ 1) at 1. apply Z.pow_le_mono_r; lia. }
    set (X := 10 ^ (r - J + 2)) in *.
    assert (EU : 100 * U = W * X).
    { subst U W X. rewrite <- Z.pow_add_r by lia.
      change 100 with (10 ^ 2). rewrite <- Z.pow_add_r by lia. f_equal. lia. }
    split; [|nia].
    assert (H1 : (fd * X) * W <= fn * W).
    { replace (fd * X * W) with (fd * (W * X)) by ring. rewrite <- EU. lia. }
    assert (H2 : fd * X <= fn) by (apply (Z.mul_le_mono_pos_r _ _ W); lia).
    nia.
  - right. set (w := J - r - 2).
    assert (Hw : 0 <= w) by (subst w; lia).
    pose proof (pow10_pos w Hw) as HT.
    exists (10 ^ w).
    assert (EW : W = 100 * 10 ^ w * U).
    { subst U W w. change 100 with (10 ^ 2). rewrite <- !Z.pow_add_r by lia.
      f_equal. lia. }
    set (T := 10 ^ w) in *.
    assert (B1' : fd <= fn * T).
    { apply (Z.mul_le_mono_pos_r _ _ (100 * U)); [lia|].
      replace (fn * T * (100 * U)) with (fn * (100 * T * U)) by ring.
      rewrite <- EW. lia. }
    assert (B2' : 2 * Z.abs (100 * T * fn - c * fd) <= fd).
    { apply (Z.mul_le_mono_pos_r _ _ U); [lia|].
      replace (2 * Z.abs (100 * T * fn - c * fd) * U)
        with (2 * Z.abs (fn * W - c * (fd * U))); [lia|].
      rewrite EW.
      replace (fn * (100 * T * U) - c * (fd * U))
        with ((100 * T * fn - c * fd) * U) by ring.
      rewrite Z.abs_mul, (Z.abs_eq U) by lia. ring. }
    split; [lia|]. split; [exact B1'|]. split; [exact B2'|].
    destruct (Z.eq_dec w 0) as [E0|E0].
    + left. assert (E1 : (0 <=? r - J + 2) = true) by (apply Z.leb_le; lia).
      rewrite E1. replace (r - J + 2) with 0 by lia.
      subst T. rewrite E0. simpl. split; [reflexivity|lia].
    + right. assert (E1 : (0 <=? r - J + 2) = false) by (apply Z.leb_gt; lia).
      rewrite E1. replace (- (r - J) - 2) with w by (subst w; lia). fold T.
      assert (HT10 : 10 <= T).
      { subst T. change 10 with (10 ^ 1) at 1. apply Z.pow_le_mono_r; lia. }
      split; [exact HT10|].
      apply round_half_even_nearest. lia.
Qed.

Lemma stored_hundredths_bounds a n :
  1 <= a -> 1 <= n -> a <= 9 * n -> 0 <= stored_hundredths a n <= 999.
Proof.
  intros Ha Hn H9.
  destruct (stored_hundredths_spec a n Ha Hn)
    as (fn & fd & c & r & J & -> & Hfd & Hfn & Hr & HJ & HA & B1 & B2).
  assert (HF : 1000 * fn <= (1000 * 9 + 1) * fd).
  { apply (float_below a n fn fd (2 ^ 53)); lia. }
  destruct (quantize_cases c r J fd fn Hfd Hfn Hr HJ B1 B2)
    as [[H10 _]|(T & HT & B1' & B2' & Hq)]; [lia|].
  set (v := quantize_hundredths c (r - J)) in *.
  assert (Hc : 100 <= c).
  { assert (199 * fd <= 2 * c * fd) by nia.
    assert (199 <= 2 * c) by (apply (Z.mul_le_mono_pos_r _ _ fd); lia). lia. }
  assert (Hc2 : 2000 * c <= 1800200 * T + 1000).
  { apply (Z.mul_le_mono_pos_r _ _ fd); [lia|].
    assert (1000 * fn * T <= 9001 * fd * T) by (apply Z.mul_le_mono_nonneg_r; lia).
    nia. }
  destruct Hq as [[-> ->]|[HT10 Hv]]; [lia|].
  split.
  - assert (- 2 * T < 2 * v * T) by lia.
    assert (- 1 < v) by nia. lia.
  - assert (2000 * (v * T) <= 1801200 * T + 1000) by lia.
    nia.
Qed.

Lemma stored_hundredths_precision a n :
  1 <= a -> 1 <= n -> stored_hundredths a n <= 999 ->
  100 * Z.abs (stored_hundredths a n * n - 100 * a) <= 56 * n.
Proof.
  intros Ha Hn H9.
  destruct (stored_hundredths_spec a n Ha Hn)
    as (fn & fd & c & r & J & E & Hfd & Hfn & Hr & HJ & HA & B1 & B2).
  rewrite E in *.
  destruct (quantize_cases c r J fd fn Hfd Hfn Hr HJ B1 B2)
    as [[_ H10]|(T & HT & B1' & B2' & Hq)]; [lia|].
  set (v := quantize_hundredths c (r - J)) in *.
  set (EE := 2 ^ 53) in *.
  assert (HE : 1000000 <= EE) by (subst EE; change (2 ^ 53) with 9007199254740992; lia).
  (* the value seen by the quantizer is within 0.0055 of the float *)
  assert (Hvf : 200 * Z.abs (v * fd - 100 * fn) <= 110 * fd).
  { destruct Hq as [[HT1 Hvc]|[HT10 Hv]].
    - rewrite Hvc. subst T.
      replace (c * fd - 100 * fn) with (- (100 * 1 * fn - c * fd)) by ring.
      rewrite Z.abs_opp. lia.
    - assert (H1 : 2 * Z.abs ((c - v * T) * fd) <= T * fd).
      { rewrite Z.abs_mul, (Z.abs_eq fd) by lia.
        replace (2 * (Z.abs (c - v * T) * fd)) with (2 * Z.abs (c - v * T) * fd) by ring.
        apply Z.mul_le_mono_nonneg_r; lia. }
      assert (H2 : 2 * Z.abs ((v * fd - 100 * fn) * T) <= T * fd + fd) by lia.
      rewrite Z.abs_mul, (Z.abs_eq T) in H2 by lia.
      assert (H3 : 10 * fd <= T * fd) by (apply Z.mul_le_mono_nonneg_r; lia).
      assert (H4 : 200 * Z.abs (v * fd - 100 * fn) * T <= (110 * fd) * T) by lia.
      apply (Z.mul_le_mono_pos_r _ _ T); lia. }
  assert (Hf10 : fn <= 10 * fd).
  { assert (200 * (100 * fn - v * fd) <= 110 * fd) by lia.
    assert (v * fd <= 999 * fd) by (apply Z.mul_le_mono_nonneg_r; lia). lia. }
  (* so the mean is below 11, and the float within 2^-53 of it *)
  assert (Ha11 : a <= 11 * n).
  { destruct (Z_le_gt_dec a (11 * n)) as [|Hgt]; [assumption|exfalso].
    assert (H1 : EE * (a * fd - fn * n) <= EE * Z.abs (fn * n - a * fd)).
    { apply Z.mul_le_mono_nonneg_l; lia. }
    assert (H2 : fn * n <= 10 * fd * n) by (apply Z.mul_le_mono_nonneg_r; lia).
    assert (H3 : (EE - 1) * (a * fd) <= EE * (10 * fd * n)).
    { assert (EE * (fn * n) <= EE * (10 * fd * n))
        by (apply Z.mul_le_mono_nonneg_l; lia). lia. }
    assert (H4 : (11 * n + 1) * fd <= a * fd) by (apply Z.mul_le_mono_nonneg_r; lia).
    assert (H5 : (EE - 1) * ((11 * n + 1) * fd) <= (EE - 1) * (a * fd))
      by (apply Z.mul_le_mono_nonneg_l; lia).
    assert (H6 : 0 < n * fd) by (apply Z.mul_pos_pos; lia).
    assert (H7 : 11 * (n * fd) <= EE * (n * fd)) by (apply Z.mul_le_mono_nonneg_r; lia).
    nia. }
  assert (Hd : 20000 * Z.abs (fn * n - a * fd) <= n * fd).
  { assert (H1 : a * fd <= 11 * n * fd) by (apply Z.mul_le_mono_nonneg_r; lia).
    assert (H2 : 220000 * Z.abs (fn * n - a * fd) <= EE * Z.abs (fn * n - a * fd))
      by (apply Z.mul_le_mono_nonneg_r; lia).
    lia. }
  apply (Z.mul_le_mono_pos_r _ _ (2 * fd)); [lia|].
  assert (Hn1 : 200 * Z.abs ((v * fd - 100 * fn) * n) <= 110 * fd * n).
  { rewrite Z.abs_mul, (Z.abs_eq n) by lia.
    replace (200 * (Z.abs (v * fd - 100 * fn) * n))
      with (200 * Z.abs (v * fd - 100 * fn) * n) by ring.
    apply Z.mul_le_mono_nonneg_r; lia. }
  replace (100 * Z.abs (v * n - 100 * a) * (2 * fd))
    with (200 * Z.abs ((v * n - 100 * a) * fd))
    by (rewrite Z.abs_mul, (Z.abs_eq fd) by lia; ring).
  lia.
Qed.

Lemma average_of_fits rs :
  scores_fit rs -> fits_decimal_3_2 (average_of rs) = true.
Proof.
  intros H. unfold fits_decimal_3_2. apply Z.leb_le.
  destruct rs as [|r rs]; [simpl; lia|].
  pose proof (sum_scores_bounds _ H) as B.
  unfold average_of.
  set (l := r :: rs) in *.
  assert (Hn : 1 <= Z.of_nat (length l)) by (subst l; simpl length; lia).
  set (n := Z.of_nat (length l)) in *. set (t := sum_scores l) in *.
  cbv zeta. destruct (t =? 0) eqn:E0; [simpl; lia|].
  apply Z.eqb_neq in E0.
  pose proof (stored_hundredths_bounds (Z.abs t) n ltac:(lia) Hn ltac:(lia)) as Hb.
  set (v := stored_hundredths (Z.abs t) n) in *.
  destruct (Z.sgn_spec t) as [[? Es]|[[? Es]|[? Es]]]; try lia;
    rewrite Es; lia.
Qed.

(** When the write succeeds, the stored value is within 0.0056 of the
    mean: at most 0.0005 from the three digits, 0.005 from the
    quantization, and the error of the float. *)
Lemma average_of_precision rs :
  fits_decimal_3_2 (average_of rs) = true ->
  100 * Z.abs (average_of rs * Z.of_nat (length rs) - 100 * sum_scores rs)
    <= 56 * Z.of_nat (length rs).
Proof.
  unfold fits_decimal_3_2. intros H. apply Z.leb_le in H.
  destruct rs as [|r rs]; [simpl; lia|].
  unfold average_of in *.
  set (l := r :: rs) in *.
  assert (Hn : 1 <= Z.of_nat (length l)) by (subst l; simpl length; lia).
  set (n := Z.of_nat (length l)) in *. set (t := sum_scores l) in *.
  cbv zeta in *. destruct (t =? 0) eqn:E0.
  - apply Z.eqb_eq in E0. rewrite E0. simpl. lia.
  - apply Z.eqb_neq in E0.
    set (v := stored_hundredths (Z.abs t) n) in *.
    assert (Hv : v <= 999).
    { destruct (Z.sgn_spec t) as [[? Es]|[[? Es]|[? Es]]]; try lia;
        rewrite Es in H; lia. }
    pose proof (stored_hundredths_precision (Z.abs t) n ltac:(lia) Hn Hv) as P.
    fold v in P.
    destruct (Z.sgn_spec t) as [[Ht Es]|[[Ht Es]|[Ht Es]]]; lia.
Qed.

Lemma set_score_id rid s r : rating_id (set_score rid s r) = rating_id r.
Proof. unfold set_score. destruct (rating_id r =? rid); reflexivity. Qed.

Lemma set_score_photo rid s r : rating_photo (set_score rid s r) = rating_photo r.
Proof. unfold set_score. destruct (rating_id r =? rid); reflexivity. Qed.

Lemma map_set_score_ids rid s l :
  map rating_id (map (set_score rid s) l) = map rating_id l.
Proof.
  rewrite map_map. apply map_ext. intros; apply set_score_id.
Qed.

Lemma filter_map_same {A} (f : A -> bool) (g : A -> A) l :
  (forall a, f (g a) = f a) -> filter f (map g l) = map g (filter f l).
Proof.
  intros H. induction l as [|a l IH]; simpl; auto.
  rewrite H. destruct (f a); simpl; now rewrite IH.
Qed.

Lemma ratings_of_insert db r pk :
  ratings_of (insert_rating db r) pk =
  ratings_of db pk ++ (if rating_photo r =? pk then [r] else []).
Proof. unfold ratings_of, insert_rating. simpl. now rewrite filter_app. Qed.

Lemma ratings_of_update db rid s pk :
  ratings_of (update_rating_score db rid s) pk =
  map (set_score rid s) (ratings_of db pk).
Proof.
  unfold ratings_of, update_rating_score. simpl.
  apply filter_map_same. intros a. now rewrite set_score_photo.
Qed.

Lemma scores_fit_set_score rid s l :
  score_fits s -> scores_fit l -> scores_fit (map (set_score rid s) l).
Proof.
  intros Hs. induction 1 as [|r l Hr _ IH]; simpl; constructor; auto.
  unfold set_score. destruct (rating_id r =? rid); auto.
Qed.

Lemma scores_fit_insert db r pk :
  score_fits (score r) -> scores_fit (ratings_of db pk) ->
  scores_fit (ratings_of (insert_rating db r) pk).
Proof.
  intros Hs H. rewrite ratings_of_insert. apply Forall_app. split; auto.
  destruct (rating_photo r =? pk); [constructor; [exact Hs|constructor]|constructor].
Qed.

(** With one-digit scores the upsert runs to the end. *)
Lemma update_or_create_succeeds db n u pk s :
  (length (ratings_by db u pk) <= 1)%nat ->
  score_fits s -> scores_fit (ratings_of db pk) ->
  exists db', update_or_create db n u pk s =
              saved db' (match ratings_by db u pk with [] => true | _ => false end).
Proof.
  intros Hone Hs Hfit. unfold update_or_create, Rating_save, update_average_rating.
  destruct (ratings_by db u pk) as [|r [|r' l]]; simpl in Hone; try lia.
  - rewrite average_of_fits by (now apply scores_fit_insert).
    simpl. eauto.
  - rewrite average_of_fits
      by (rewrite ratings_of_update; now apply scores_fit_set_score).
    simpl. eauto.
Qed.

Section UpsertRows.
Variables u pk : Z.

Lemma filter_mine_set_score rid s l :
  filter (rated_by u pk) (map (set_score rid s) l) =
  map (set_score rid s) (filter (rated_by u pk) l).
Proof.
  apply filter_map_same. intros a.
  unfold rated_by, set_score. destruct (rating_id a =? rid); reflexivity.
Qed.

Lemma unique_id_eq (l : list Rating) a r :
  NoDup (map rating_id l) -> In a l -> In r l -> rating_id a = rating_id r -> a = r.
Proof.
  induction l as [|b l IH]; simpl; [tauto|].
  intros Hnd Ha Hr Heq. inversion Hnd as [|? ? Hnot Hnd']; subst.
  destruct Ha as [->|Ha], Hr as [->|Hr]; auto.
  - exfalso. apply Hnot. rewrite Heq. now apply in_map.
  - exfalso. apply Hnot. rewrite <- Heq. now apply in_map.
Qed.

Lemma filter_others_set_score r s l :
  NoDup (map rating_id l) -> In r l -> rated_by u pk r = true ->
  filter (rated_by_other u pk) (map (set_score (rating_id r) s) l) =
  filter (rated_by_other u pk) l.
Proof.
  intros Hnd Hin Hm.
  assert (K : forall a, In a l -> rated_by_other u pk a = true ->
                        rating_id a <> rating_id r).
  { intros a Ha Ht Heq.
    assert (a = r) by (eapply unique_id_eq; eauto). subst a.
    unfold rated_by, rated_by_other in *.
    destruct (rating_user r =? u); simpl in *; try discriminate.
    rewrite andb_false_r in Ht. discriminate. }
  clear Hnd Hin Hm. induction l as [|a l IH]; simpl; auto.
  assert (E : rated_by_other u pk (set_score (rating_id r) s a) = rated_by_other u pk a).
  { unfold rated_by_other, set_score.
    destruct (rating_id a =? rating_id r); reflexivity. }
  rewrite E. destruct (rated_by_other u pk a) eqn:Ht.
  - rewrite IH by (intros; apply K; simpl; auto). f_equal.
    unfold set_score.
    destruct (rating_id a =? rating_id r) eqn:Ee; auto.
    apply Z.eqb_eq in Ee. exfalso. apply (K a); simpl; auto.
  - apply IH. intros; apply K; simpl; auto.
Qed.

Lemma filter_mine_In l r :
  filter (rated_by u pk) l = [r] -> In r l /\ rated_by u pk r = true.
Proof.
  intros H. apply filter_In. rewrite H. simpl; auto.
Qed.

Lemma split_length l :
  length (filter (fun r => rating_photo r =? pk) l) =
  (length (filter (rated_by_other u pk) l) + length (filter (rated_by u pk) l))%nat.
Proof.
  induction l as [|a l IH]; simpl; auto.
  unfold rated_by, rated_by_other in *.
  destruct (rating_photo a =? pk), (rating_user a =? u); simpl; rewrite IH; lia.
Qed.

Lemma split_sum l :
  sum_scores (filter (fun r => rating_photo r =? pk) l) =
  sum_scores (filter (rated_by_other u pk) l) + sum_scores (filter (rated_by u pk) l).
Proof.
  induction l as [|a l IH]; simpl; auto.
  unfold rated_by, rated_by_other in *.
  destruct (rating_photo a =? pk), (rating_user a =? u); simpl; rewrite IH; lia.
Qed.

(** What one successful upsert leaves in the rating table. *)
Lemma upsert_rows db n s db' c :
  update_or_create db n u pk s = saved db' c ->
  rating_ids_unique db ->
  (ratings_by db u pk = [] -> ~ In n (map rating_id (ratings db))) ->
  (exists r, ratings_by db' u pk = [r] /\ score r = s) /\
  ratings_by_others db' u pk = ratings_by_others db u pk /\
  rating_ids_unique db' /\
  (score_fits s -> scores_fit (ratings_of db pk) -> scores_fit (ratings_of db' pk)).
Proof.
  intros Hsaved Hnd Hfresh.
  apply update_or_create_saved in Hsaved.
  assert (Hm : filter (rated_by u pk) [mkRating n pk u s] = [mkRating n pk u s]).
  { unfold rated_by; simpl. now rewrite !Z.eqb_refl. }
  assert (Ht : filter (rated_by_other u pk) [mkRating n pk u s] = []).
  { unfold rated_by_other; simpl. now rewrite !Z.eqb_refl. }
  destruct Hsaved as [[E [_ Hup]]|[r [E [_ Hup]]]];
    pose proof (update_average_rating_ratings _ _ _ Hup) as Hr;
    (split; [|split; [|split]]).
  - unfold ratings_by in *. rewrite Hr. simpl.
    rewrite filter_app, E, Hm. simpl. eexists; split; eauto.
  - unfold ratings_by_others. rewrite Hr. simpl.
    now rewrite filter_app, Ht, app_nil_r.
  - unfold rating_ids_unique in *. rewrite Hr. simpl. rewrite map_app. simpl.
    apply Permutation_NoDup with (l := n :: map rating_id (ratings db)).
    + apply Permutation_cons_append.
    + constructor; auto.
  - intros Hs Hfit. unfold ratings_of. rewrite Hr.
    apply (scores_fit_insert db (mkRating n pk u s) pk Hs Hfit).
  - unfold ratings_by in *. rewrite Hr. simpl.
    rewrite filter_mine_set_score, E. simpl.
    eexists; split; eauto. unfold set_score. rewrite Z.eqb_refl. reflexivity.
  - destruct (filter_mine_In _ _ E) as [Hin Hmine].
    unfold ratings_by_others. rewrite Hr. simpl.
    now apply filter_others_set_score.
  - unfold rating_ids_unique in *. rewrite Hr. simpl.
    now rewrite map_set_score_ids.
  - intros Hs Hfit. unfold ratings_of. rewrite Hr.
    change (scores_fit (ratings_of (update_rating_score db (rating_id r) s) pk)).
    rewrite ratings_of_update. now apply scores_fit_set_score.
Qed.
End UpsertRows.

Lemma find_map_same {A} (f : A -> bool) (g : A -> A) l :
  (forall a, f (g a) = f a) -> find f (map g l) = option_map g (find f l).
Proof.
  intros H. induction l as [|a l IH]; simpl; auto.
  rewrite H. destruct (f a); auto.
Qed.

Lemma set_average_rating_id pk v p : photo_id (set_average_rating pk v p) = photo_id p.
Proof. unfold set_average_rating. destruct (photo_id p =? pk); reflexivity. Qed.

Lemma get_photo_save_average db pk v q :
  get_photo (save_average_rating db pk v) q =
  option_map (set_average_rating pk v) (get_photo db q).
Proof.
  unfold get_photo, save_average_rating. simpl.
  apply find_map_same. intros a. now rewrite set_average_rating_id.
Qed.

Lemma get_photo_update_average db pk db' q :
  update_average_rating db pk = Some db' ->
  get_photo db q <> None -> get_photo db' q <> None.
Proof.
  unfold update_average_rating.
  destruct (fits_decimal_3_2 _); [|discriminate].
  intros H; inversion H; subst. rewrite get_photo_save_average.
  destruct (get_photo db q); simpl; congruence.
Qed.

Lemma get_photo_update_or_create db n u pk s q :
  get_photo db q <> None ->
  get_photo (Saved_db (update_or_create db n u pk s)) q <> None.
Proof.
  intros H.
  destruct (update_or_create db n u pk s) as [d c|d] eqn:E; simpl.
  - apply update_or_create_saved in E.
    destruct E as [[_ [_ Hup]]|[r [_ [_ Hup]]]];
      eapply get_photo_update_average; eauto.
  - unfold update_or_create, atomic in E.
    destruct (match ratings_by db u pk with
              | [] => _ | [r] => _ | _ => _ end); inversion E; subst; exact H.
Qed.

(** An authenticated [rate_photo] with a non-zero score on an existing
    photo is the upsert. *)
Lemma rate_photo_upsert db u n pk s photo :
  get_photo db pk = Some photo -> s <> 0 ->
  rate_photo db (Some u) n (Some pk) (Some s) =
  match update_or_create db n (user_id u) pk s with
  | saved db' true => (db', HTTP_201_CREATED)
  | saved db' false => (db', HTTP_200_OK)
  | failed db' => (db', HTTP_500_INTERNAL_SERVER_ERROR)
  end.
Proof.
  intros Hp Hs. unfold rate_photo. simpl.
  destruct (s =? 0) eqn:E; [apply Z.eqb_eq in E; contradiction|]. simpl.
  rewrite Hp. now rewrite (get_photo_id _ _ _ Hp).
Qed.

Lemma rating_count_split db u pk :
  rating_count db pk =
  Z.of_nat (length (ratings_by_others db u pk)) + Z.of_nat (length (ratings_by db u pk)).
Proof.
  unfold rating_count, ratings_of, ratings_by_others, ratings_by.
  rewrite (split_length u pk). lia.
Qed.

Lemma rating_sum_split db u pk :
  rating_sum db pk =
  sum_scores (ratings_by_others db u pk) + sum_scores (ratings_by db u pk).
Proof.
  unfold rating_sum, ratings_of, ratings_by_others, ratings_by.
  apply split_sum.
Qed.

(** C4. A second submission by the same user on the same photo replaces
    the score of the existing rating instead of adding one: after
    [rate_photo] with score [s1] and then with score [s2] (3 then 5 in
    the scenario), the second call is answered 200 (not 201), the pair
    (photo, user) has exactly one rating, its score is [s2], the second
    call left the number of ratings of the photo unchanged, and the
    photo's rating count and sum are those of the other users' ratings
    plus this single entry. *)
Theorem rate_photo_twice_replaces :
  forall db u n1 n2 pk photo s1 s2,
    get_photo db pk = Some photo ->
    rating_ids_unique db ->
    ~ In n1 (map rating_id (ratings db)) ->
    (length (ratings_by db (user_id u) pk) <= 1)%nat ->
    scores_fit (ratings_of db pk) ->
    score_fits s1 -> score_fits s2 ->
    s1 <> 0 -> s2 <> 0 ->
    let db1 := fst (rate_photo db (Some u) n1 (Some pk) (Some s1)) in
    let r2 := rate_photo db1 (Some u) n2 (Some pk) (Some s2) in
    let db2 := fst r2 in
    snd r2 = HTTP_200_OK /\
    (exists r, ratings_by db2 (user_id u) pk = [r] /\ score r = s2) /\
    rating_count db2 pk = rating_count db1 pk /\
    rating_count db2 pk = Z.of_nat (length (ratings_by_others db (user_id u) pk)) + 1 /\
    rating_sum db2 pk = sum_scores (ratings_by_others db (user_id u) pk) + s2.
Proof.
  intros db u n1 n2 pk photo s1 s2 Hp Hid Hfresh Hone Hfit Hf1 Hf2 Hs1 Hs2.
  cbv zeta.
  destruct (update_or_create_succeeds db n1 (user_id u) pk s1 Hone Hf1 Hfit)
    as [db1 E1].
  rewrite (rate_photo_upsert _ _ _ _ _ _ Hp Hs1), E1.
  assert (D1 : fst (if match ratings_by db (user_id u) pk with [] => true | _ => false end
                    then (db1, HTTP_201_CREATED) else (db1, HTTP_200_OK)) = db1)
    by (destruct (match ratings_by db (user_id u) pk with [] => true | _ => false end);
        reflexivity).
  rewrite D1. clear D1.
  destruct (upsert_rows (user_id u) pk db n1 s1 db1 _ E1 Hid (fun _ => Hfresh))
    as [[r1 [Hr1 Hsc1]] [Ho1 [Hid1 Hfit1]]].
  specialize (Hfit1 Hf1 Hfit).
  assert (Hp1 : get_photo db1 pk <> None).
  { change db1 with (Saved_db (saved db1
      (match ratings_by db (user_id u) pk with [] => true | _ => false end))).
    rewrite <- E1. apply get_photo_update_or_create. congruence. }
  destruct (get_photo db1 pk) as [photo1|] eqn:Hp1'; [clear Hp1|congruence].
  assert (Hone1 : (length (ratings_by db1 (user_id u) pk) <= 1)%nat)
    by (rewrite Hr1; simpl; lia).
  destruct (update_or_create_succeeds db1 n2 (user_id u) pk s2 Hone1 Hf2 Hfit1)
    as [db2 E2].
  rewrite Hr1 in E2.
  rewrite (rate_photo_upsert _ _ _ _ _ _ Hp1' Hs2), E2. simpl.
  assert (Hfresh1 : ratings_by db1 (user_id u) pk = [] ->
                    ~ In n2 (map rating_id (ratings db1)))
    by (rewrite Hr1; discriminate).
  destruct (upsert_rows (user_id u) pk db1 n2 s2 db2 _ E2 Hid1 Hfresh1)
    as [[r2 [Hr2 Hsc2]] [Ho2 _]].
  split; [reflexivity|].
  split; [exists r2; auto|].
  rewrite (rating_count_split db2 (user_id u) pk),
          (rating_count_split db1 (user_id u) pk),
          (rating_sum_split db2 (user_id u) pk).
  rewrite Ho2, Ho1, Hr2, Hr1. simpl. rewrite Hsc2.
  repeat split; lia.
Qed.

Lemma rate_photo_twice_replaces_witness :
  let db1 := fst (rate_photo sample_db (Some sample_user) 100 (Some 1) (Some 3)) in
  let r2 := rate_photo db1 (Some sample_user) 101 (Some 1) (Some 5) in
  let db2 := fst r2 in
  snd r2 = HTTP_200_OK /\
  (exists r, ratings_by db2 7 1 = [r] /\ score r = 5) /\
  rating_count db2 1 = rating_count db1 1 /\
  rating_count db2 1 = Z.of_nat (length (ratings_by_others sample_db 7 1)) + 1 /\
  rating_sum db2 1 = sum_scores (ratings_by_others sample_db 7 1) + 5.
Proof.
  apply (rate_photo_twice_replaces sample_db sample_user 100 101 1 sample_photo 3 5).
  - reflexivity.
  - constructor.
  - simpl; tauto.
  - simpl; lia.
  - constructor.
  - unfold score_fits; lia.
  - unfold score_fits; lia.
  - lia.
  - lia.
Defined.

(* ================================================================= *)
(** * Ratings: the stored average *)
(* ================================================================= *)

Lemma update_average_rating_fits db pk db' :
  update_average_rating db pk = Some db' ->
  fits_decimal_3_2 (average_of (ratings_of db' pk)) = true.
Proof.
  unfold update_average_rating.
  destruct (fits_decimal_3_2 _) eqn:E; [|discriminate].
  intros H. inversion H; subst db'. exact E.
Qed.

Lemma update_average_rating_consistent db pk db' p :
  update_average_rating db pk = Some db' ->
  get_photo db' pk = Some p ->
  average_consistent db' p.
Proof.
  unfold update_average_rating, average_consistent.
  destruct (fits_decimal_3_2 _); [|discriminate].
  intros H Hp. inversion H; subst db'; clear H.
  rewrite get_photo_save_average in Hp.
  destruct (get_photo db pk) as [p0|] eqn:E; simpl in Hp; [|discriminate].
  inversion Hp; subst p; clear Hp.
  pose proof (get_photo_id _ _ _ E) as Hid.
  rewrite set_average_rating_id, Hid.
  unfold set_average_rating. rewrite Hid, Z.eqb_refl. reflexivity.
Qed.

Lemma update_or_create_consistent db n u pk s db' c p :
  update_or_create db n u pk s = saved db' c ->
  get_photo db' pk = Some p ->
  average_consistent db' p.
Proof.
  intros H Hp. apply update_or_create_saved in H.
  destruct H as [[_ [_ Hup]]|[r [_ [_ Hup]]]];
    eapply update_average_rating_consistent; eauto.
Qed.

(** Every successful [rate_photo] leaves the rated photo with the
    average recomputed from its ratings: [Rating.save] does it. *)
Lemma rate_photo_recomputes db u n pk s db' st :
  rate_photo db (Some u) n (Some pk) (Some s) = (db', st) ->
  st = HTTP_200_OK \/ st = HTTP_201_CREATED ->
  exists p, get_photo db' pk = Some p /\ average_consistent db' p.
Proof.
  unfold rate_photo. simpl.
  destruct (s =? 0); simpl; [intros H [?|?]; inversion H; congruence|].
  destruct (get_photo db pk) as [photo|] eqn:Hp;
    [|intros H [?|?]; inversion H; congruence].
  rewrite (get_photo_id _ _ _ Hp).
  destruct (update_or_create db n (user_id u) pk s) as [d c|d] eqn:E;
    [|intros H [?|?]; inversion H; congruence].
  intros H _.
  assert (d = db') by (destruct c; inversion H; auto). subst d.
  assert (Hne : get_photo db' pk <> None).
  { change db' with (Saved_db (saved db' c)). rewrite <- E.
    apply get_photo_update_or_create. congruence. }
  destruct (get_photo db' pk) as [p|] eqn:Hp'; [|congruence].
  exists p. split; auto. eapply update_or_create_consistent; eauto.
Qed.

(** C1. The average is recomputed by [Rating.save] only; [Rating] has
    no [delete] hook.  A photo is rated 5 by one user (the average
    becomes 5.00), then that rating is deleted through the rating view
    set: the photo has no ratings left and its stored average is still
    5.00, not 0. *)
Theorem destroy_rating_leaves_average_stale :
  let db := apply_ops sample_db
              [OpRatePhoto (Some sample_user) 100 (Some 1) (Some 5);
               OpDestroy (Some sample_user) 100] in
  ratings_of db 1 = [] /\
  average_of (ratings_of db 1) = 0 /\
  option_map average_rating (get_photo db 1) = Some 500 /\
  (forall p, get_photo db 1 = Some p -> ~ average_consistent db p).
Proof.
  cbv zeta. repeat split; try reflexivity.
  intros p Hp. vm_compute in Hp. inversion Hp; subst p; clear Hp.
  unfold average_consistent. vm_compute. discriminate.
Qed.

(* ================================================================= *)
(** * Ratings: score validation *)
(* ================================================================= *)

(** The serializer path rejects a score outside 1..5 before it writes. *)
Lemma create_rating_rejects_out_of_range db u n photo_param s :
  s < 1 \/ 5 < s ->
  create_rating db (Some u) n photo_param (Some s) = (db, HTTP_400_BAD_REQUEST).
Proof.
  intros H. unfold create_rating, validate_score.
  assert (E : (s <? 1) || (5 <? s) = true).
  { apply orb_true_iff. destruct H; [left; now apply Z.ltb_lt|right; now apply Z.ltb_lt]. }
  rewrite E. destruct photo_param as [pk|]; auto.
  destruct (get_photo db pk); reflexivity.
Qed.

(** C3. [rate_photo] passes [request.data.get('score')] to
    [update_or_create] without validating it: a score of 6 is answered
    with 201, a rating with score 6 is stored and the average becomes
    6.00.  The same submission through the serializer path
    ([RatingViewSet.create]) is rejected with 400 and writes nothing. *)
Theorem rate_photo_accepts_out_of_range_score :
  rate_photo sample_db (Some sample_user) 100 (Some 1) (Some 6) =
    (mkDB [mkPhoto 1 10 None 0 600 true] [mkRating 100 1 7 6] [],
     HTTP_201_CREATED) /\
  validate_score 6 = None /\
  create_rating sample_db (Some sample_user) 100 (Some 1) (Some 6) =
    (sample_db, HTTP_400_BAD_REQUEST).
Proof.
  repeat split; reflexivity.
Qed.

(* ================================================================= *)
(** * View tracking *)
(* ================================================================= *)

Lemma get_queryset_incl db request p :
  In p (get_queryset db request) -> In p (photos db).
Proof.
  unfold get_queryset.
  assert (K : forall f l, In p (match exclude_param request with
                                | Some e => filter (fun q => negb (photo_id q =? e)) (filter f l)
                                | None => filter f l
                                end) -> In p l).
  { intros f l H. destruct (exclude_param request).
    - apply filter_In in H. destruct H as [H _]. apply filter_In in H. tauto.
    - apply filter_In in H. tauto. }
  destruct (creator_param request); [apply K|].
  destruct (user request) as [u|]; [|apply K].
  destruct (Role_eqb (role u) creator_role); apply K.
Qed.

Lemma set_views_count_id pk v p : photo_id (set_views_count pk v p) = photo_id p.
Proof. unfold set_views_count. destruct (photo_id p =? pk); reflexivity. Qed.

Lemma set_views_count_creator pk v p : creator (set_views_count pk v p) = creator p.
Proof. unfold set_views_count. destruct (photo_id p =? pk); reflexivity. Qed.

Lemma set_views_count_published pk v p :
  is_published (set_views_count pk v p) = is_published p.
Proof. unfold set_views_count. destruct (photo_id p =? pk); reflexivity. Qed.

(** The UPDATE of [views_count] changes no column [get_queryset] reads. *)
Lemma get_queryset_set_views_count db request pk v rs vs :
  get_queryset (mkDB (map (set_views_count pk v) (photos db)) rs vs) request =
  map (set_views_count pk v) (get_queryset db request).
Proof.
  unfold get_queryset. simpl.
  assert (K : forall f l,
             (forall a, f (set_views_count pk v a) = f a) ->
             match exclude_param request with
             | Some e => filter (fun q => negb (photo_id q =? e))
                                (filter f (map (set_views_count pk v) l))
             | None => filter f (map (set_views_count pk v) l)
             end =
             map (set_views_count pk v)
                 match exclude_param request with
                 | Some e => filter (fun q => negb (photo_id q =? e)) (filter f l)
                 | None => filter f l
                 end).
  { intros f l Hf. destruct (exclude_param request).
    - rewrite (filter_map_same f) by exact Hf.
      apply filter_map_same. intros a. now rewrite set_views_count_id.
    - now apply filter_map_same. }
  destruct (creator_param request).
  - apply K. intros a.
    now rewrite set_views_count_creator, set_views_count_published.
  - destruct (user request) as [u|].
    + destruct (Role_eqb (role u) creator_role); apply K; intros a;
        now rewrite ?set_views_count_creator, set_views_count_published.
    + apply K. intros a. apply set_views_count_published.
Qed.

Lemma find_unique_id l pk a :
  NoDup (map photo_id l) -> In a l -> photo_id a = pk ->
  find (fun p => photo_id p =? pk) l = Some a.
Proof.
  induction l as [|b l IH]; simpl; [tauto|].
  intros Hnd Hin Hid. inversion Hnd as [|? ? Hnot Hnd']; subst.
  destruct Hin as [->|Hin].
  - now rewrite Z.eqb_refl.
  - destruct (photo_id b =? photo_id a) eqn:E.
    + apply Z.eqb_eq in E. exfalso. apply Hnot. rewrite E. now apply in_map.
    + now apply IH.
Qed.

Lemma views_of_app db pk v :
  views_of (mkDB (photos db) (ratings db) (views db ++ [v])) pk =
  views_of db pk ++ (if view_photo v =? pk then [v] else []).
Proof.
  unfold views_of. simpl. rewrite filter_app. reflexivity.
Qed.

(** What one uninterrupted [retrieve] of a visible photo does. *)
Lemma retrieve_visible db request pk now instance :
  photo_ids_unique db ->
  find (fun p => photo_id p =? pk) (get_queryset db request) = Some instance ->
  let db' := fst (retrieve db request pk now) in
  completed (snd (retrieve db request pk now)) = true /\
  stored_views_count db' pk = stored_views_count db pk + 1 /\
  length (views_of db' pk) = S (length (views_of db pk)) /\
  photo_ids_unique db' /\
  (forall request',
      find (fun p => photo_id p =? pk) (get_queryset db request') <> None ->
      find (fun p => photo_id p =? pk) (get_queryset db' request') <> None).
Proof.
  intros Hnd Hfind. cbv zeta.
  pose proof (find_some _ _ Hfind) as [Hin Hid]. apply Z.eqb_eq in Hid.
  apply get_queryset_incl in Hin.
  assert (Hget : get_photo db pk = Some instance)
    by (apply find_unique_id; auto).
  unfold retrieve. simpl. rewrite Hfind. simpl. rewrite Hid.
  repeat split.
  - unfold stored_views_count, get_photo. simpl.
    rewrite find_map_same by (intros a; now rewrite set_views_count_id).
    fold (get_photo db pk). rewrite Hget. simpl.
    unfold set_views_count. now rewrite Hid, Z.eqb_refl.
  - unfold views_of. simpl. rewrite filter_app. simpl.
    rewrite Z.eqb_refl, length_app. simpl. lia.
  - unfold photo_ids_unique. simpl. rewrite map_map.
    erewrite map_ext; [exact Hnd|]. intros a. apply set_views_count_id.
  - intros request' Hvis.
    rewrite get_queryset_set_views_count.
    rewrite find_map_same by (intros a; now rewrite set_views_count_id).
    destruct (find _ (get_queryset db request')); simpl; congruence.
Qed.

(** [n] back-to-back calls raise the counter and the event log by [n]. *)
Lemma retrieve_all_counts calls : forall db pk,
  photo_ids_unique db ->
  (forall request now, In (request, now) calls ->
     find (fun p => photo_id p =? pk) (get_queryset db request) <> None) ->
  stored_views_count (retrieve_all db calls pk) pk =
    stored_views_count db pk + Z.of_nat (length calls) /\
  length (views_of (retrieve_all db calls pk) pk) =
    (length (views_of db pk) + length calls)%nat.
Proof.
  induction calls as [|[request now] rest IH]; intros db pk Hnd Hvis.
  - simpl. split; lia.
  - destruct (find (fun p => photo_id p =? pk) (get_queryset db request))
      as [instance|] eqn:Hfind;
      [|exfalso; apply (Hvis request now); simpl; auto].
    destruct (retrieve_visible db request pk now instance Hnd Hfind)
      as [_ [Hc [Hv [Hnd' Hvis']]]].
    cbn [retrieve_all].
    destruct (IH (fst (retrieve db request pk now)) pk Hnd') as [IH1 IH2].
    { intros r t Hin. apply Hvis'. apply (Hvis r t). simpl; auto. }
    rewrite IH1, IH2, Hc, Hv. cbn [length]. split; lia.
Qed.

(* ----------------------------------------------------------------- *)
(** ** Interleaved calls *)

Lemma call_counted_mono db db' c :
  log_grows db db' -> call_counted db c -> call_counted db' c.
Proof.
  intros H. destruct c as [r pk t|r inst t|inst|s d]; simpl; auto;
    specialize (H (photo_id inst)); lia.
Qed.

Lemma retrieve_step_counted db c :
  counted db -> call_counted db c ->
  counted (fst (retrieve_step db c)) /\
  call_counted (fst (retrieve_step db c)) (snd (retrieve_step db c)) /\
  log_grows db (fst (retrieve_step db c)).
Proof.
  intros Hdb Hc. destruct c as [r pk t|r inst t|inst|s d]; simpl.
  - destruct (find _ (get_queryset db r)) as [inst|] eqn:E; simpl.
    + repeat split; auto; [|intros q; lia].
      apply find_some in E. destruct E as [E _].
      apply get_queryset_incl in E. now apply Hdb.
    + repeat split; auto. intros q; lia.
  - simpl in Hc.
    assert (G : log_grows db (mkDB (photos db) (ratings db)
                 (views db ++ [mkPhotoView (photo_id inst) (option_map user_id (user r))
                                 (GenericIPAddressField_get_db_prep_value (get_client_ip r))
                                 (request_user_agent r) t]))).
    { intros q. rewrite views_of_app, length_app. lia. }
    repeat split; auto.
    + intros p Hp. simpl in Hp. specialize (Hdb p Hp).
      specialize (G (photo_id p)). simpl. lia.
    + rewrite views_of_app, length_app. simpl. rewrite Z.eqb_refl. simpl. lia.
  - simpl in Hc. repeat split; auto; [|intros q; unfold views_of; simpl; lia].
    intros p Hp. simpl in Hp. apply in_map_iff in Hp.
    destruct Hp as [p0 [<- Hp0]]. rewrite set_views_count_id.
    change (views_of (mkDB _ (ratings db) (views db)) (photo_id p0))
      with (views_of db (photo_id p0)).
    unfold set_views_count. destruct (photo_id p0 =? photo_id inst) eqn:E; simpl.
    + apply Z.eqb_eq in E. rewrite E. exact Hc.
    + now apply Hdb.
  - repeat split; auto. intros q; lia.
Qed.

Lemma step_at_counted calls : forall db i,
  counted db -> Forall (call_counted db) calls ->
  counted (fst (step_at db calls i)) /\
  Forall (call_counted (fst (step_at db calls i))) (snd (step_at db calls i)) /\
  log_grows db (fst (step_at db calls i)).
Proof.
  induction calls as [|c rest IH]; intros db i Hdb Hcs.
  - simpl. repeat split; auto. intros q; lia.
  - inversion Hcs as [|? ? Hc Hrest]; subst. destruct i as [|j]; simpl.
    + destruct (retrieve_step_counted db c Hdb Hc) as [H1 [H2 H3]].
      destruct (retrieve_step db c) as [db' c']; simpl in *.
      repeat split; auto. constructor; auto.
      eapply Forall_impl; [|exact Hrest].
      intros a. now apply call_counted_mono.
    + destruct (IH db j Hdb Hrest) as [H1 [H2 H3]].
      destruct (step_at db rest j) as [db' rest']; simpl in *.
      repeat split; auto. constructor; auto.
      now apply call_counted_mono with (db := db).
Qed.

Lemma run_counted schedule : forall db calls,
  counted db -> Forall (call_counted db) calls ->
  counted (fst (run db calls schedule)).
Proof.
  induction schedule as [|i rest IH]; intros db calls Hdb Hcs; simpl; auto.
  destruct (step_at_counted calls db i Hdb Hcs) as [H1 [H2 _]].
  destruct (step_at db calls i) as [db' calls']; simpl in *.
  now apply IH.
Qed.

(** C2 (as the code has it). [n] view calls for a photo that run one
    after the other raise [views_count] by exactly [n] and record [n]
    views.  When the same calls run concurrently, in any interleaving
    of their database statements, no photo's [views_count] exceeds the
    number of views recorded for it; the exact increase is not kept. *)
Theorem retrieve_counts_views :
  forall db calls pk schedule,
    photo_ids_unique db ->
    counted db ->
    (forall request now, In (request, now) calls ->
       find (fun p => photo_id p =? pk) (get_queryset db request) <> None) ->
    (stored_views_count (retrieve_all db calls pk) pk =
       stored_views_count db pk + Z.of_nat (length calls) /\
     length (views_of (retrieve_all db calls pk) pk) =
       (length (views_of db pk) + length calls)%nat) /\
    counted (fst (run db (start_calls calls pk) schedule)).
Proof.
  intros db calls pk schedule Hnd Hdb Hvis. split.
  - now apply retrieve_all_counts.
  - apply run_counted; auto.
    unfold start_calls. apply Forall_forall. intros c Hc.
    apply in_map_iff in Hc. destruct Hc as [x [<- _]]. exact I.
Qed.

Lemma retrieve_counts_views_witness :
  (stored_views_count
     (retrieve_all sample_db [(anonymous_request, 1000); (anonymous_request, 1001)] 1) 1 =
     stored_views_count sample_db 1 + 2 /\
   length (views_of
     (retrieve_all sample_db [(anonymous_request, 1000); (anonymous_request, 1001)] 1) 1) =
     (length (views_of sample_db 1) + 2)%nat) /\
  counted (fst (run sample_db
                    (start_calls [(anonymous_request, 1000); (anonymous_request, 1001)] 1)
                    [0; 1; 0; 1; 0; 1]%nat)).
Proof.
  apply (retrieve_counts_views sample_db
           [(anonymous_request, 1000); (anonymous_request, 1001)] 1
           [0; 1; 0; 1; 0; 1]%nat).
  - unfold photo_ids_unique. simpl. constructor; [simpl; tauto|constructor].
  - intros p Hp. simpl in Hp. destruct Hp as [<-|[]]. simpl. lia.
  - intros request now Hin. simpl in Hin.
    destruct Hin as [E|[E|[]]]; inversion E; subst; simpl; discriminate.
Defined.

(** Two concurrent calls for the same photo, both reading the row
    before either writes it: both complete with 200, two views are
    recorded, and [views_count] has grown by one only. *)
Lemma concurrent_retrieve_loses_update :
  let calls := start_calls [(anonymous_request, 1000); (anonymous_request, 1001)] 1 in
  let result := run sample_db calls [0; 1; 0; 1; 0; 1]%nat in
  forallb completed (snd result) = true /\
  length (views_of (fst result) 1) = 2%nat /\
  stored_views_count (fst result) 1 = 1 /\
  stored_views_count (fst result) 1 <>
    stored_views_count sample_db 1 + Z.of_nat (length calls).
Proof.
  cbv zeta. repeat split; try reflexivity. vm_compute. discriminate.
Qed.

(* ================================================================= *)
(** * Trending *)
(* ================================================================= *)

Lemma In_firstn {A} (x : A) n : forall l, In x (firstn n l) -> In x l.
Proof.
  induction n as [|n IH]; intros [|a l]; simpl; try tauto.
  intros [H|H]; auto.
Qed.

Section OrderByFacts.
Context {A : Type} (key : A -> Z).

Lemma insert_desc_perm x l : Permutation (x :: l) (insert_desc key x l).
Proof.
  induction l as [|y r IH]; simpl; auto.
  destruct (key y <=? key x); auto.
  eapply perm_trans; [apply perm_swap|]. now constructor.
Qed.

Lemma order_by_desc_perm l : Permutation l (order_by_desc key l).
Proof.
  induction l as [|x l IH]; simpl; auto.
  eapply perm_trans; [|apply insert_desc_perm]. now constructor.
Qed.

Lemma insert_desc_sorted x l :
  StronglySorted (desc key) l -> StronglySorted (desc key) (insert_desc key x l).
Proof.
  induction 1 as [|y r Hs IH Hall]; simpl.
  - repeat constructor.
  - destruct (key y <=? key x) eqn:E.
    + apply Z.leb_le in E. constructor; [constructor; auto|].
      constructor; auto.
      eapply Forall_impl; [|exact Hall]. unfold desc. intros a Ha. lia.
    + apply Z.leb_gt in E. constructor; auto.
      assert (P := insert_desc_perm x r).
      apply Forall_forall. intros a Ha.
      apply Permutation_sym in P. apply (Permutation_in _ P) in Ha.
      destruct Ha as [<-|Ha].
      * unfold desc. lia.
      * rewrite Forall_forall in Hall. now apply Hall.
Qed.

Lemma order_by_desc_sorted l : StronglySorted (desc key) (order_by_desc key l).
Proof.
  induction l as [|x l IH]; simpl; [constructor|].
  now apply insert_desc_sorted.
Qed.

Lemma firstn_sorted n : forall l,
  StronglySorted (desc key) l -> StronglySorted (desc key) (firstn n l).
Proof.
  induction n as [|n IH]; intros l Hs; simpl; [constructor|].
  destruct Hs as [|a l Hs Hall]; constructor; auto.
  apply Forall_forall. intros x Hx. apply In_firstn in Hx.
  rewrite Forall_forall in Hall. now apply Hall.
Qed.

(** A slice of a descending list never leaves out a row that ranks
    strictly above one it keeps. *)
Lemma firstn_keeps_higher n : forall l p q,
  StronglySorted (desc key) l ->
  In p (firstn n l) -> In q l -> key p < key q -> In q (firstn n l).
Proof.
  induction n as [|n IH]; intros l p q Hs Hp Hq Hlt; simpl in *; [tauto|].
  destruct Hs as [|a l Hs Hall]; simpl in *; [tauto|].
  destruct Hq as [->|Hq]; auto.
  destruct Hp as [->|Hp].
  - rewrite Forall_forall in Hall. specialize (Hall q Hq).
    unfold desc in Hall. lia.
  - right. eapply IH; eauto.
Qed.
End OrderByFacts.

Lemma recent_views_nonneg db week_ago p : 0 <= recent_views db week_ago p.
Proof. unfold recent_views. lia. Qed.

Lemma filter_filter_andb {A} (f g : A -> bool) l :
  filter f (filter g l) = filter (fun x => f x && g x) l.
Proof.
  induction l as [|a l IH]; simpl; auto.
  destruct (g a); simpl; destruct (f a); simpl; now rewrite IH.
Qed.

Lemma insert_desc_ext {A} (k1 k2 : A -> Z) x l :
  (forall a, k1 a = k2 a) -> insert_desc k1 x l = insert_desc k2 x l.
Proof.
  intros H. induction l as [|y r IH]; simpl; auto.
  rewrite !H, IH. reflexivity.
Qed.

Lemma order_by_desc_ext {A} (k1 k2 : A -> Z) l :
  (forall a, k1 a = k2 a) -> order_by_desc k1 l = order_by_desc k2 l.
Proof.
  intros H. induction l as [|x l IH]; simpl; auto.
  rewrite IH. now apply insert_desc_ext.
Qed.





Section StableOrder.
Context {A : Type} (key : A -> Z) (before : A -> A -> Prop).



(** In a descending list a row with a larger key stands before a row
    with a smaller one. *)
Lemma sorted_split_higher : forall l p q,
  StronglySorted (desc key) l -> In p l -> In q l -> key p < key q ->
  exists l1 l2 l3, l = l1 ++ q :: l2 ++ p :: l3.
Proof.
  induction l as [|a l IH]; intros p q Hs Hp Hq Hlt; [destruct Hp|].
  inversion Hs as [|? ? Hs' Hall]; subst.
  destruct Hq as [->|Hq].
  - destruct Hp as [->|Hp]; [lia|].
    destruct (in_split _ _ Hp) as [l2 [l3 ->]].
    exists [], l2, l3. reflexivity.
  - destruct Hp as [->|Hp].
    + rewrite Forall_forall in Hall. specialize (Hall q Hq).
      unfold desc in Hall. lia.
    + destruct (IH p q Hs' Hp Hq Hlt) as [l1 [l2 [l3 ->]]].
      exists (a :: l1), l2, l3. reflexivity.
Qed.
End StableOrder.

Lemma group_by_id_perm l : Permutation l (group_by_id l).
Proof. apply order_by_desc_perm. Qed.




(** The rows [trending] ranks are those of the queryset. *)
Lemma ranked_perm (key : Photo -> Z) l :
  Permutation l (order_by_desc key (group_by_id l)).
Proof.
  eapply perm_trans; [apply group_by_id_perm|apply order_by_desc_perm].
Qed.

Lemma trending_In db request now p :
  In p (trending db request now) -> In p (get_queryset db request).
Proof.
  unfold trending. intros H. apply In_firstn in H.
  exact (Permutation_in _ (Permutation_sym (ranked_perm _ _)) H).
Qed.

Lemma trending_all db request now :
  (length (get_queryset db request) <= 20)%nat ->
  Permutation (get_queryset db request) (trending db request now).
Proof.
  intros H. unfold trending. rewrite firstn_all2; [apply ranked_perm|].
  now rewrite <- (Permutation_length (ranked_perm _ _)).
Qed.



(** C5 (as the code has it). [trending] does not filter on the count:
    every photo it returns is one the caller's queryset holds, ranked on
    its number of views in the last seven days, which may be zero; and
    every photo of the queryset with strictly more recent views is
    returned too and stands before it in the list, so one with no
    recent view comes only after all those that have some. *)
Theorem trending_ranks_without_excluding :
  forall db request now p,
    In p (trending db request now) ->
    In p (get_queryset db request) /\
    0 <= recent_view_count db now p /\
    (forall q, In q (get_queryset db request) ->
       recent_view_count db now p < recent_view_count db now q ->
       exists l1 l2 l3, trending db request now = l1 ++ q :: l2 ++ p :: l3).
Proof.
  intros db request now p Hp. split; [exact (trending_In _ _ _ _ Hp)|].
  split; [unfold recent_view_count; apply recent_views_nonneg|].
  intros q Hq Hlt. unfold trending, recent_view_count in *.
  set (key := recent_views db (now - timedelta_days 7)) in *.
  set (l := order_by_desc key (group_by_id (get_queryset db request))) in *.
  assert (Hs : StronglySorted (desc key) l) by apply order_by_desc_sorted.
  apply (sorted_split_higher key); auto.
  - now apply firstn_sorted.
  - apply (firstn_keeps_higher key 20 l p q); auto.
    exact (Permutation_in _ (ranked_perm _ _) Hq).
Qed.

Lemma trending_ranks_without_excluding_witness :
  recent_view_count trend_db 1000 sample_photo = 0 /\
  recent_view_count trend_db 1000 viewed_photo = 1 /\
  exists l1 l2 l3,
    trending trend_db anonymous_request 1000 =
      l1 ++ viewed_photo :: l2 ++ sample_photo :: l3.
Proof.
  split; [reflexivity|]. split; [reflexivity|].
  refine (proj2 (proj2 (trending_ranks_without_excluding
                          trend_db anonymous_request 1000 sample_photo _))
                viewed_photo _ _).
  - vm_compute. right. left. reflexivity.
  - vm_compute. right. left. reflexivity.
  - vm_compute. reflexivity.
Defined.

(** A published photo that nobody has viewed is trending. *)
Lemma trending_returns_unviewed_photo :
  trending sample_db anonymous_request 1000 = [sample_photo] /\
  recent_view_count sample_db 1000 sample_photo = 0 /\
  ~ (forall p, In p (trending sample_db anonymous_request 1000) ->
               1 <= recent_view_count sample_db 1000 p).
Proof.
  repeat split; try reflexivity.
  intros H. specialize (H sample_photo (or_introl eq_refl)).
  vm_compute in H. apply H. reflexivity.
Qed.



(** Two unviewed photos stored with the larger id first come out with
    the smaller id first. *)
Lemma trending_tie_by_id :
  trending tie_db anonymous_request 1000 =
    [mkPhoto 1 10 None 0 0 true; mkPhoto 2 10 None 0 0 true].
Proof. reflexivity. Qed.

(* ----------------------------------------------------------------- *)
(** ** Who sees what *)

(** A caller who is not a creator gets published photos only. *)
Lemma get_queryset_published db request p :
  is_creator_user (user request) = false ->
  In p (get_queryset db request) -> is_published p = true.
Proof.
  unfold get_queryset, is_creator_user. intros Hu Hin.
  assert (K : forall f,
             (forall q, f q = true -> is_published q = true) ->
             In p (match exclude_param request with
                   | Some e => filter (fun q => negb (photo_id q =? e)) (filter f (photos db))
                   | None => filter f (photos db)
                   end) -> is_published p = true).
  { intros f Hf H. destruct (exclude_param request).
    - apply filter_In in H. destruct H as [H _]. apply filter_In in H.
      apply Hf. tauto.
    - apply filter_In in H. apply Hf. tauto. }
  destruct (creator_param request).
  - revert Hin. apply K. intros q Hq. apply andb_true_iff in Hq. tauto.
  - destruct (user request) as [u|].
    + rewrite Hu in Hin. revert Hin. apply K. auto.
    + revert Hin. apply K. auto.
Qed.

(** C10. The trending list depends on who asks.  An unpublished photo
    is among the candidates of its creator's own request and in no
    request of a caller who is not a creator (anonymous or consumer); it
    is never in such a caller's trending list, and when the creator's
    candidates fit in the 20 rows it is in the creator's trending list,
    which therefore differs from the other caller's over the same data. *)
Theorem trending_depends_on_caller :
  forall db now p u request request',
    In p (photos db) ->
    is_published p = false ->
    creator p = user_id u ->
    role u = creator_role ->
    user request = Some u ->
    creator_param request = None ->
    exclude_param request = None ->
    is_creator_user (user request') = false ->
    In p (get_queryset db request) /\
    ~ In p (get_queryset db request') /\
    ~ In p (trending db request' now) /\
    ((length (get_queryset db request) <= 20)%nat ->
       In p (trending db request now) /\
       trending db request now <> trending db request' now).
Proof.
  intros db now p u request request' Hin Hunpub Hcr Hrole Hu Hcp Hex Hother.
  assert (Hq : In p (get_queryset db request)).
  { unfold get_queryset. rewrite Hcp, Hu, Hrole, Hex. simpl.
    apply filter_In. split; auto.
    rewrite Hcr, Z.eqb_refl. apply orb_true_r. }
  assert (Hnq : ~ In p (get_queryset db request')).
  { intros H. apply (get_queryset_published _ _ _ Hother) in H. congruence. }
  assert (Hnt : ~ In p (trending db request' now)).
  { intros H. apply Hnq. exact (trending_In _ _ _ _ H). }
  repeat split; auto.
  - exact (Permutation_in _ (trending_all _ _ now H) Hq).
  - intros E. apply Hnt. rewrite <- E.
    exact (Permutation_in _ (trending_all _ _ now H) Hq).
Qed.

Lemma trending_depends_on_caller_witness :
  In draft_photo (get_queryset draft_db creator_request) /\
  ~ In draft_photo (get_queryset draft_db consumer_request) /\
  ~ In draft_photo (trending draft_db consumer_request 1000) /\
  ((length (get_queryset draft_db creator_request) <= 20)%nat ->
     In draft_photo (trending draft_db creator_request 1000) /\
     trending draft_db creator_request 1000 <> trending draft_db consumer_request 1000).
Proof.
  apply (trending_depends_on_caller draft_db 1000 draft_photo creator_user
           creator_request consumer_request).
  - simpl. right. left. reflexivity.
  - reflexivity.
  - reflexivity.
  - reflexivity.
  - reflexivity.
  - reflexivity.
  - reflexivity.
  - reflexivity.
Defined.

(* ================================================================= *)
(** * The image field *)
(* ================================================================= *)

(** The two serializers compute the same field. *)
Lemma get_image_same acc cont key up sdk obj utcnow :
  PhotoDetailSerializer_get_image acc cont key up sdk obj utcnow =
  PhotoListSerializer_get_image acc cont key up sdk obj utcnow.
Proof. reflexivity. Qed.

(** C9. A photo without an image serializes [image] as null; a photo
    whose image URL does not contain [blob.core.windows.net] serializes
    the storage URL itself, with nothing appended, in the list and in
    the detail serializer. *)
Theorem get_image_outside_azure :
  forall acc cont key up sdk obj utcnow,
    (image obj = None ->
       PhotoListSerializer_get_image acc cont key up sdk obj utcnow = None /\
       PhotoDetailSerializer_get_image acc cont key up sdk obj utcnow = None) /\
    (forall url,
       image obj = Some url ->
       contains "blob.core.windows.net" url = false ->
       PhotoListSerializer_get_image acc cont key up sdk obj utcnow = Some url /\
       PhotoDetailSerializer_get_image acc cont key up sdk obj utcnow = Some url).
Proof.
  intros acc cont key up sdk obj utcnow. split.
  - intros H. unfold PhotoListSerializer_get_image, PhotoDetailSerializer_get_image.
    rewrite H. split; reflexivity.
  - intros url H Hc.
    unfold PhotoListSerializer_get_image, PhotoDetailSerializer_get_image.
    rewrite H, Hc. split; reflexivity.
Qed.

(** C7 (as the code has it). For a photo whose image URL contains
    [blob.core.windows.net], both serializers return the image URL, a
    question mark, and the token the Azure SDK's [generate_blob_sas]
    yields for the configured account, container and key, the blob name
    taken from the URL path, read permission, and an expiry one hour
    after the time of the call.  The layout of the token and what its
    signature covers are the SDK's. *)
Theorem get_image_appends_sas_token :
  forall acc cont key up sdk obj utcnow url,
    image obj = Some url ->
    contains "blob.core.windows.net" url = true ->
    let token :=
      sdk (mkSasArguments acc cont (blob_name_of up url) key true (utcnow + 3600)) in
    PhotoListSerializer_get_image acc cont key up sdk obj utcnow =
      Some (url ++ "?" ++ token)%string /\
    PhotoDetailSerializer_get_image acc cont key up sdk obj utcnow =
      Some (url ++ "?" ++ token)%string.
Proof.
  intros acc cont key up sdk obj utcnow url H Hc. cbv zeta.
  unfold PhotoListSerializer_get_image, PhotoDetailSerializer_get_image.
  rewrite H, Hc. split; reflexivity.
Qed.

Lemma get_image_outside_azure_witness :
  (PhotoListSerializer_get_image "acct" "media" "k3y" sample_urlparse_path
     sample_generate_blob_sas sample_photo 1000 = None /\
   PhotoDetailSerializer_get_image "acct" "media" "k3y" sample_urlparse_path
     sample_generate_blob_sas sample_photo 1000 = None) /\
  (PhotoListSerializer_get_image "acct" "media" "k3y" sample_urlparse_path
     sample_generate_blob_sas cdn_photo 1000 =
     Some "https://cdn.example.com/media/photos/a.jpg"%string /\
   PhotoDetailSerializer_get_image "acct" "media" "k3y" sample_urlparse_path
     sample_generate_blob_sas cdn_photo 1000 =
     Some "https://cdn.example.com/media/photos/a.jpg"%string).
Proof.
  split.
  - apply (proj1 (get_image_outside_azure "acct" "media" "k3y" sample_urlparse_path
                    sample_generate_blob_sas sample_photo 1000)).
    reflexivity.
  - apply (proj2 (get_image_outside_azure "acct" "media" "k3y" sample_urlparse_path
                    sample_generate_blob_sas cdn_photo 1000)
                 "https://cdn.example.com/media/photos/a.jpg"%string).
    + reflexivity.
    + reflexivity.
Defined.

Lemma get_image_appends_sas_token_witness :
  let token :=
    sample_generate_blob_sas
      (mkSasArguments "acct" "media"
         (blob_name_of sample_urlparse_path
            "https://acct.blob.core.windows.net/media/photos/a.jpg")
         "k3y" true (1000 + 3600)) in
  PhotoListSerializer_get_image "acct" "media" "k3y" sample_urlparse_path
    sample_generate_blob_sas azure_photo 1000 =
    Some ("https://acct.blob.core.windows.net/media/photos/a.jpg" ++ "?" ++ token)%string /\
  PhotoDetailSerializer_get_image "acct" "media" "k3y" sample_urlparse_path
    sample_generate_blob_sas azure_photo 1000 =
    Some ("https://acct.blob.core.windows.net/media/photos/a.jpg" ++ "?" ++ token)%string.
Proof.
  apply (get_image_appends_sas_token "acct" "media" "k3y" sample_urlparse_path
           sample_generate_blob_sas azure_photo 1000
           "https://acct.blob.core.windows.net/media/photos/a.jpg"%string).
  - reflexivity.
  - reflexivity.
Defined.

(** The serializers do not fix the layout [?expires=...&sig=...]: the
    query string is the SDK's token as it comes. *)
Lemma get_image_not_in_expires_sig_form :
  PhotoDetailSerializer_get_image "acct" "media" "k3y" sample_urlparse_path
    sample_generate_blob_sas azure_photo 1000 =
    Some "https://acct.blob.core.windows.net/media/photos/a.jpg?se=4600&sp=r&sr=b&sig=photos/a.jpg"%string /\
  has_signed_url_form
    "https://acct.blob.core.windows.net/media/photos/a.jpg"
    "https://acct.blob.core.windows.net/media/photos/a.jpg?se=4600&sp=r&sr=b&sig=photos/a.jpg"
    = false /\
  ~ (forall acc cont key up sdk obj utcnow url,
       image obj = Some url ->
       contains "blob.core.windows.net" url = true ->
       exists signed,
         PhotoDetailSerializer_get_image acc cont key up sdk obj utcnow = Some signed /\
         has_signed_url_form url signed = true).
Proof.
  split; [reflexivity|]. split; [reflexivity|].
  intros H.
  destruct (H "acct" "media" "k3y" sample_urlparse_path sample_generate_blob_sas
              azure_photo 1000
              "https://acct.blob.core.windows.net/media/photos/a.jpg"
              eq_refl eq_refl)%string as [signed [E F]].
  vm_compute in E. inversion E; subst signed. vm_compute in F. discriminate.
Qed.

(* ================================================================= *)
(** * Signer *)
(* ================================================================= *)

Lemma flip_bit_changes sig i : flip_bit sig i <> sig.
Proof.
  unfold flip_bit. intros H.
  assert (E : N.lxor sig (N.lxor sig (N.shiftl 1 i)) = N.lxor sig sig)
    by (now rewrite H).
  rewrite <- N.lxor_assoc, N.lxor_nilpotent, N.lxor_0_l in E.
  rewrite N.shiftl_1_l in E.
  pose proof (N.pow_nonzero 2 i ltac:(discriminate)). contradiction.
Qed.

(** C8. For a token issued for path [p] with a non-negative TTL:
    [Verify] at the time of issuance, and at any time up to the expiry,
    answers [Valid]; with any single bit of the signature inverted it
    answers [Invalid] at those times; and at any time after the expiry
    it answers [Expired] for the issued token. *)
Theorem issue_verify_roundtrip :
  forall (MAC : string -> string -> N) (secret : string) now path ttl,
    0 <= ttl ->
    let t := Issue MAC secret now path ttl in
    expires_at t = now + ttl /\
    Verify MAC secret now path (expires_at t) (signature t) = Valid /\
    (forall now', now' <= expires_at t ->
       Verify MAC secret now' path (expires_at t) (signature t) = Valid) /\
    (forall now' i, now' <= expires_at t ->
       Verify MAC secret now' path (expires_at t) (flip_bit (signature t) i) = Invalid) /\
    (forall now', expires_at t < now' ->
       Verify MAC secret now' path (expires_at t) (signature t) = Expired).
Proof.
  intros MAC secret now path ttl Httl. cbv zeta. simpl.
  assert (V : forall now', now' <= now + ttl ->
            Verify MAC secret now' path (now + ttl)
                   (MAC secret (canonicalize path (now + ttl))) = Valid).
  { intros now' Hle. unfold Verify.
    destruct (now + ttl <? now') eqn:E; [apply Z.ltb_lt in E; lia|].
    now rewrite N.eqb_refl. }
  repeat split.
  - apply V. lia.
  - exact V.
  - intros now' i Hle. unfold Verify.
    destruct (now + ttl <? now') eqn:E; [apply Z.ltb_lt in E; lia|].
    destruct (N.eqb _ _) eqn:F; auto.
    apply N.eqb_eq in F. symmetry in F. now apply flip_bit_changes in F.
  - intros now' Hlt. unfold Verify.
    destruct (now + ttl <? now') eqn:E; auto. apply Z.ltb_ge in E. lia.
Qed.

Lemma issue_verify_roundtrip_witness :
  let t := Issue sample_MAC "k3y" 1000 "/media/photos/a.jpg" 3600 in
  expires_at t = 1000 + 3600 /\
  Verify sample_MAC "k3y" 1000 "/media/photos/a.jpg" (expires_at t) (signature t) = Valid /\
  (forall now', now' <= expires_at t ->
     Verify sample_MAC "k3y" now' "/media/photos/a.jpg" (expires_at t) (signature t) = Valid) /\
  (forall now' i, now' <= expires_at t ->
     Verify sample_MAC "k3y" now' "/media/photos/a.jpg" (expires_at t)
            (flip_bit (signature t) i) = Invalid) /\
  (forall now', expires_at t < now' ->
     Verify sample_MAC "k3y" now' "/media/photos/a.jpg" (expires_at t) (signature t) = Expired).
Proof.
  apply (issue_verify_roundtrip sample_MAC "k3y" 1000 "/media/photos/a.jpg" 3600).
  lia.
Defined.

(* ================================================================= *)
(** * Visibility of photos *)
(* ================================================================= *)

(** The filter [get_queryset] applies, read off its three branches. *)
Lemma get_queryset_filter db request p :
  In p (get_queryset db request) ->
  match creator_param request with
  | Some c => creator p = c /\ is_published p = true
  | None =>
    is_published p = true \/
    exists u, user request = Some u /\ role u = creator_role /\ creator p = user_id u
  end.
Proof.
  intros Hin. unfold get_queryset in Hin.
  assert (K : forall f,
             In p (match exclude_param request with
                   | Some e => filter (fun q => negb (photo_id q =? e)) (filter f (photos db))
                   | None => filter f (photos db)
                   end) -> f p = true).
  { intros f H. destruct (exclude_param request).
    - apply filter_In in H. destruct H as [H _]. apply filter_In in H. tauto.
    - apply filter_In in H. tauto. }
  destruct (creator_param request) as [c|].
  - apply K in Hin. apply andb_true_iff in Hin. destruct Hin as [H1 H2].
    split; auto. now apply Z.eqb_eq.
  - destruct (user request) as [u|] eqn:Eu; [|apply K in Hin; auto].
    destruct (Role_eqb (role u) creator_role) eqn:Er; [|apply K in Hin; auto].
    apply K in Hin. apply orb_true_iff in Hin. destruct Hin as [H|H]; auto.
    right. exists u. repeat split; auto.
    + destruct (role u); simpl in Er; congruence.
    + now apply Z.eqb_eq.
Qed.

(** X1. Whatever the request, [get_queryset] returns a photo only if it
    is published, or if the request carries no [creator] parameter and
    comes from a user with the creator role who is the photo's creator:
    an unpublished photo is never shown to anybody else. *)
Theorem get_queryset_confidential :
  forall db request p,
    In p (get_queryset db request) ->
    is_published p = true \/
    (creator_param request = None /\
     exists u, user request = Some u /\ role u = creator_role /\
               creator p = user_id u).
Proof.
  intros db request p Hin. apply get_queryset_filter in Hin.
  destruct (creator_param request) as [c|].
  - left. tauto.
  - destruct Hin as [H|H]; [left; exact H|right; split; [reflexivity|exact H]].
Qed.

Lemma get_queryset_confidential_witness :
  is_published draft_photo = true \/
  (creator_param creator_request = None /\
   exists u, user creator_request = Some u /\ role u = creator_role /\
             creator draft_photo = user_id u).
Proof.
  apply (get_queryset_confidential draft_db creator_request draft_photo).
  simpl. right. left. reflexivity.
Defined.

(** X2. The query parameters of [get_queryset] are strict filters: the
    photo named by [exclude] is never returned, and with a [creator]
    parameter every photo returned is a published photo of that
    creator, also when the caller is that creator. *)
Theorem get_queryset_parameters :
  forall db request p,
    In p (get_queryset db request) ->
    (forall e, exclude_param request = Some e -> photo_id p <> e) /\
    (forall c, creator_param request = Some c ->
               creator p = c /\ is_published p = true).
Proof.
  intros db request p Hin. split.
  - intros e He. unfold get_queryset in Hin. rewrite He in Hin.
    apply filter_In in Hin. destruct Hin as [_ H].
    apply negb_true_iff in H. now apply Z.eqb_neq.
  - intros c Hc. unfold get_queryset in Hin. rewrite Hc in Hin.
    assert (H : In p (filter (fun q => (creator q =? c) && is_published q) (photos db))).
    { destruct (exclude_param request); auto.
      apply filter_In in Hin. tauto. }
    apply filter_In in H. destruct H as [_ H]. apply andb_true_iff in H.
    destruct H as [H1 H2]. split; auto. now apply Z.eqb_eq.
Qed.

Lemma get_queryset_parameters_witness :
  (forall e, exclude_param (mkRequest (Some creator_user) (Some 10) (Some 5) None None None)
             = Some e -> photo_id sample_photo <> e) /\
  (forall c, creator_param (mkRequest (Some creator_user) (Some 10) (Some 5) None None None)
             = Some c -> creator sample_photo = c /\ is_published sample_photo = true).
Proof.
  apply (get_queryset_parameters draft_db
           (mkRequest (Some creator_user) (Some 10) (Some 5) None None None) sample_photo).
  simpl. left. reflexivity.
Defined.

(** X3. A detail request for an unpublished photo by anybody but a
    creator-role user who owns it is answered 404 and leaves the
    database as it was: no view is recorded and no counter moves. *)
Theorem retrieve_hidden_photo :
  forall db request pk now p,
    photo_ids_unique db ->
    get_photo db pk = Some p ->
    is_published p = false ->
    (forall u, user request = Some u -> role u = creator_role ->
               creator p <> user_id u) ->
    retrieve db request pk now = (db, Finished HTTP_404_NOT_FOUND None).
Proof.
  intros db request pk now p Hnd Hp Hunpub Hother.
  unfold retrieve. simpl.
  destruct (find (fun q => photo_id q =? pk) (get_queryset db request))
    as [inst|] eqn:E; [|reflexivity].
  exfalso. apply find_some in E. destruct E as [Hin Hid].
  apply Z.eqb_eq in Hid.
  assert (Hget : get_photo db pk = Some inst).
  { apply find_unique_id; auto. eapply get_queryset_incl; eauto. }
  assert (inst = p) by congruence. subst inst.
  apply get_queryset_filter in Hin.
  destruct (creator_param request) as [c|].
  - destruct Hin as [_ H]. congruence.
  - destruct Hin as [H|[u [Hu [Hr Hc]]]]; [congruence|].
    exact (Hother u Hu Hr Hc).
Qed.

Lemma retrieve_hidden_photo_witness :
  retrieve draft_db consumer_request 5 1000 =
  (draft_db, Finished HTTP_404_NOT_FOUND None).
Proof.
  apply (retrieve_hidden_photo draft_db consumer_request 5 1000 draft_photo).
  - unfold photo_ids_unique. simpl.
    constructor; [simpl; intros [H|[]]; discriminate|].
    constructor; [simpl; tauto|constructor].
  - reflexivity.
  - reflexivity.
  - intros u Hu Hr. simpl in Hu. inversion Hu; subst u. discriminate.
Defined.

(* ================================================================= *)
(** * What view tracking writes *)
(* ================================================================= *)

Lemma set_views_count_untracked pk v p :
  untracked_columns (set_views_count pk v p) = untracked_columns p.
Proof.
  unfold set_views_count, untracked_columns.
  destruct (photo_id p =? pk); reflexivity.
Qed.

Lemma retrieve_step_frame db c :
  ratings (fst (retrieve_step db c)) = ratings db /\
  (exists added, views (fst (retrieve_step db c)) = views db ++ added /\
                 (length added <= 1)%nat) /\
  map untracked_columns (photos (fst (retrieve_step db c))) =
  map untracked_columns (photos db).
Proof.
  destruct c as [r pk t|r inst t|inst|s d]; simpl.
  - destruct (find _ (get_queryset db r)); simpl; repeat split; auto;
      exists []; rewrite app_nil_r; auto.
  - repeat split; auto. eexists; split; [reflexivity|simpl; lia].
  - repeat split; auto.
    + exists []. rewrite app_nil_r; auto.
    + rewrite map_map. apply map_ext. intros a. apply set_views_count_untracked.
  - repeat split; auto. exists []. rewrite app_nil_r; auto.
Qed.

Lemma step_at_frame calls : forall db i,
  ratings (fst (step_at db calls i)) = ratings db /\
  (exists added, views (fst (step_at db calls i)) = views db ++ added /\
                 (length added <= 1)%nat) /\
  map untracked_columns (photos (fst (step_at db calls i))) =
  map untracked_columns (photos db).
Proof.
  induction calls as [|c rest IH]; intros db i.
  - simpl. repeat split; auto. exists []. rewrite app_nil_r; auto.
  - destruct i as [|j]; simpl.
    + pose proof (retrieve_step_frame db c) as H.
      destruct (retrieve_step db c) as [db' c']. exact H.
    + pose proof (IH db j) as H.
      destruct (step_at db rest j) as [db' rest']. exact H.
Qed.

(** X4. However the statements of concurrent detail requests
    interleave, they leave the rating table untouched, only append to
    the view log (at most one row per statement run), and change no
    column of a photo other than [views_count]. *)
Theorem run_only_tracks_views :
  forall schedule db calls,
    ratings (fst (run db calls schedule)) = ratings db /\
    (exists added, views (fst (run db calls schedule)) = views db ++ added /\
                   (length added <= length schedule)%nat) /\
    map untracked_columns (photos (fst (run db calls schedule))) =
    map untracked_columns (photos db).
Proof.
  induction schedule as [|i rest IH]; intros db calls; simpl.
  - repeat split; auto. exists []. rewrite app_nil_r; auto.
  - destruct (step_at_frame calls db i) as [H1 [[a1 [H2 L1]] H3]].
    destruct (step_at db calls i) as [db' calls']. simpl in *.
    destruct (IH db' calls') as [G1 [[a2 [G2 L2]] G3]].
    repeat split.
    + congruence.
    + exists (a1 ++ a2). rewrite G2, H2, app_assoc. split; auto.
      rewrite length_app. lia.
    + congruence.
Qed.

Lemma substring_0_length n : forall s,
  (String.length (substring 0 n s) <= n)%nat.
Proof.
  induction n as [|n IH]; intros [|c s]; simpl; try lia.
  specialize (IH s). lia.
Qed.

Lemma substring_0_prefix n : forall s, is_prefix (substring 0 n s) s.
Proof.
  induction n as [|n IH]; intros [|c s]; simpl.
  - exists EmptyString. reflexivity.
  - exists (String c s). reflexivity.
  - exists EmptyString. reflexivity.
  - destruct (IH s) as [rest E]. exists rest. simpl. now rewrite <- E.
Qed.

(** X5. An uninterrupted detail request for a visible photo appends
    exactly one view row: for that photo, with the caller's id (none
    when anonymous), the time of the call, a user agent that is the
    first 255 characters at most of the header, and the client address
    as the address column stores it: NULL when [get_client_ip] gives
    nothing or the empty text, the text itself when it has no colon,
    and the IPv6 normal form of a text that has one. *)
Theorem retrieve_records_view :
  forall db request pk now instance,
    find (fun p => photo_id p =? pk) (get_queryset db request) = Some instance ->
    let ua := request_user_agent request in
    let ip := GenericIPAddressField_get_db_prep_value (get_client_ip request) in
    views (fst (retrieve db request pk now)) =
      views db ++ [mkPhotoView pk (option_map user_id (user request)) ip ua now] /\
    (String.length ua <= 255)%nat /\
    (forall header, HTTP_USER_AGENT request = Some header -> is_prefix ua header) /\
    (get_client_ip request = None \/ get_client_ip request = Some EmptyString ->
     ip = address_null) /\
    (forall a, get_client_ip request = Some a -> a <> EmptyString ->
               ip = if has_colon a then address_ipv6 a else address_text a).
Proof.
  intros db request pk now instance Hfind. cbv zeta.
  pose proof (find_some _ _ Hfind) as [_ Hid]. apply Z.eqb_eq in Hid.
  split; [|split; [|split; [|split]]].
  - unfold retrieve. simpl. rewrite Hfind. simpl. now rewrite Hid.
  - unfold request_user_agent. destruct (HTTP_USER_AGENT request); simpl; [|lia].
    apply substring_0_length.
  - intros header H. unfold request_user_agent. rewrite H.
    apply substring_0_prefix.
  - intros [H|H]; rewrite H; reflexivity.
  - intros a H Ha. rewrite H. destruct a; [congruence|reflexivity].
Qed.

Lemma retrieve_records_view_witness :
  let ua := request_user_agent browser_request in
  let ip := GenericIPAddressField_get_db_prep_value (get_client_ip browser_request) in
  views (fst (retrieve sample_db browser_request 1 1000)) =
    views sample_db ++ [mkPhotoView 1 (option_map user_id (user browser_request))
                                    ip ua 1000] /\
  (String.length ua <= 255)%nat /\
  (forall header, HTTP_USER_AGENT browser_request = Some header -> is_prefix ua header) /\
  (get_client_ip browser_request = None \/
   get_client_ip browser_request = Some EmptyString ->
   ip = address_null) /\
  (forall a, get_client_ip browser_request = Some a -> a <> EmptyString ->
             ip = if has_colon a then address_ipv6 a else address_text a).
Proof.
  apply (retrieve_records_view sample_db browser_request 1 1000 sample_photo).
  reflexivity.
Defined.

Lemma before_comma_split s :
  has_comma (before_comma s) = false /\
  exists rest, s = (before_comma s ++ rest)%string /\
               (rest = EmptyString \/ exists r, rest = String "," r).
Proof.
  induction s as [|c s [IH1 [rest [IH2 IH3]]]]; simpl.
  - split; auto. exists EmptyString. auto.
  - destruct (Ascii.eqb c ",") eqn:E; simpl.
    + split; auto. apply Ascii.eqb_eq in E. subst c.
      exists (String "," s). split; auto. right. eauto.
    + rewrite E, IH1. split; auto.
      exists rest. split; auto. now rewrite <- IH2.
Qed.

(** X6. [get_client_ip] trusts the [X-Forwarded-For] header before the
    socket address: with a non-empty header it returns the header up
    to its first comma (what follows is empty or starts with the
    comma), whatever [REMOTE_ADDR] is; without the header, or with an
    empty one, it returns [REMOTE_ADDR]. *)
Theorem get_client_ip_forwarded_first :
  forall request,
    (forall header,
       HTTP_X_FORWARDED_FOR request = Some header -> header <> EmptyString ->
       exists ip rest,
         get_client_ip request = Some ip /\
         header = (ip ++ rest)%string /\
         has_comma ip = false /\
         (rest = EmptyString \/ exists r, rest = String "," r)) /\
    (HTTP_X_FORWARDED_FOR request = None \/
     HTTP_X_FORWARDED_FOR request = Some EmptyString ->
     get_client_ip request = REMOTE_ADDR request).
Proof.
  intros request. unfold get_client_ip. split.
  - intros header H Hne. rewrite H. destruct header as [|c s]; [congruence|].
    destruct (before_comma_split (String c s)) as [H1 [rest [H2 H3]]].
    exists (before_comma (String c s)), rest. auto.
  - intros [H|H]; rewrite H; reflexivity.
Qed.

Lemma get_client_ip_forwarded_first_witness :
  (exists ip rest,
     get_client_ip browser_request = Some ip /\
     "203.0.113.7, 10.0.0.1"%string = (ip ++ rest)%string /\
     has_comma ip = false /\
     (rest = EmptyString \/ exists r, rest = String "," r)) /\
  get_client_ip anonymous_request = REMOTE_ADDR anonymous_request.
Proof.
  split.
  - apply (proj1 (get_client_ip_forwarded_first browser_request)
                 "203.0.113.7, 10.0.0.1"%string).
    + reflexivity.
    + discriminate.
  - apply (proj2 (get_client_ip_forwarded_first anonymous_request)).
    left. reflexivity.
Defined.

(* ================================================================= *)
(** * Trending: the window and the slice *)
(* ================================================================= *)

(** X7. [trending] returns 20 photos when the caller's queryset holds
    at least 20 and the whole queryset otherwise; an empty queryset
    gives an empty list. *)
Theorem trending_length :
  forall db request now,
    length (trending db request now) =
    Nat.min 20 (length (get_queryset db request)).
Proof.
  intros db request now. unfold trending.
  rewrite length_firstn.
  now rewrite <- (Permutation_length (ranked_perm _ _)).
Qed.

(** X8. Views older than seven days never change the trending list:
    appending any such rows to the view log leaves the result of
    [trending] as it was. *)
Theorem trending_ignores_old_views :
  forall db old request now,
    Forall (fun v => viewed_at v < now - 604800) old ->
    trending (mkDB (photos db) (ratings db) (views db ++ old)) request now =
    trending db request now.
Proof.
  intros db old request now Hold. unfold trending.
  change (get_queryset (mkDB (photos db) (ratings db) (views db ++ old)) request)
    with (get_queryset db request).
  f_equal. apply order_by_desc_ext. intros p.
  unfold recent_views. cbn [views]. rewrite filter_app, length_app.
  change (timedelta_days 7) with 604800.
  assert (E : filter (fun v => (view_photo v =? photo_id p) &&
                               (now - 604800 <=? viewed_at v)) old = []).
  { clear - Hold. induction Hold as [|v old Hv _ IH]; cbn [filter]; auto.
    destruct (now - 604800 <=? viewed_at v) eqn:E;
      [apply Z.leb_le in E; lia|].
    rewrite andb_false_r. exact IH. }
  rewrite E. cbn [length]. lia.
Qed.

Lemma trending_ignores_old_views_witness :
  trending (mkDB (photos draft_db) (ratings draft_db)
                 (views draft_db ++ [mkPhotoView 1 None address_null EmptyString 1000]))
           anonymous_request 1000000 =
  trending draft_db anonymous_request 1000000.
Proof.
  apply (trending_ignores_old_views draft_db
           [mkPhotoView 1 None address_null EmptyString 1000] anonymous_request 1000000).
  constructor; [simpl; lia|constructor].
Defined.

(** X9. A detail request is a recent view at once: after an
    uninterrupted request for a visible photo at time [now], the count
    [trending] ranks on, taken at any time up to seven days later, is
    one higher for that photo and unchanged for every other photo. *)
Theorem retrieve_counts_as_recent_view :
  forall db request pk now instance later,
    find (fun p => photo_id p =? pk) (get_queryset db request) = Some instance ->
    later - 604800 <= now ->
    forall p,
      recent_view_count (fst (retrieve db request pk now)) later p =
      recent_view_count db later p + (if photo_id p =? pk then 1 else 0).
Proof.
  intros db request pk now instance later Hfind Hwin p.
  pose proof (find_some _ _ Hfind) as [_ Hid]. apply Z.eqb_eq in Hid.
  unfold retrieve. simpl. rewrite Hfind. simpl.
  unfold recent_view_count, recent_views. cbn [views].
  change (timedelta_days 7) with 604800.
  rewrite filter_app, length_app. cbn [filter view_photo viewed_at]. rewrite Hid.
  assert (E : (later - 604800 <=? now) = true) by (apply Z.leb_le; lia).
  rewrite E, andb_true_r. rewrite (Z.eqb_sym pk).
  destruct (photo_id p =? pk); cbn [length]; lia.
Qed.

Lemma retrieve_counts_as_recent_view_witness :
  recent_view_count (fst (retrieve sample_db anonymous_request 1 1000)) 2000 sample_photo =
  recent_view_count sample_db 2000 sample_photo +
    (if photo_id sample_photo =? 1 then 1 else 0).
Proof.
  apply (retrieve_counts_as_recent_view sample_db anonymous_request 1 1000
           sample_photo 2000).
  - reflexivity.
  - lia.
Defined.

(* ================================================================= *)
(** * Ratings: what the write paths keep *)
(* ================================================================= *)

Lemma update_or_create_failed db n u pk s d :
  update_or_create db n u pk s = failed d -> d = db.
Proof.
  unfold update_or_create, atomic.
  match goal with
  | |- context [match ?x with saved _ _ => _ | failed _ => _ end] => destruct x
  end; intros H; inversion H; auto.
Qed.

(** The shapes a [rate_photo] call can take. *)
Lemma rate_photo_cases db usr n photo_param score_param :
  (fst (rate_photo db usr n photo_param score_param) = db /\
   snd (rate_photo db usr n photo_param score_param) <> HTTP_200_OK /\
   snd (rate_photo db usr n photo_param score_param) <> HTTP_201_CREATED) \/
  (exists u pk s db' c,
     usr = Some u /\ photo_param = Some pk /\ score_param = Some s /\
     update_or_create db n (user_id u) pk s = saved db' c /\
     rate_photo db usr n photo_param score_param =
       (db', if c then HTTP_201_CREATED else HTTP_200_OK)).
Proof.
  unfold rate_photo.
  destruct usr as [u|]; [|left; simpl; repeat split; discriminate].
  destruct photo_param as [pk|]; [|left; simpl; repeat split; discriminate].
  destruct score_param as [s|]; [|left; simpl; repeat split; discriminate].
  simpl. destruct (s =? 0); simpl; [left; repeat split; discriminate|].
  destruct (get_photo db pk) as [photo|] eqn:Hp;
    [|left; simpl; repeat split; discriminate].
  rewrite (get_photo_id _ _ _ Hp).
  destruct (update_or_create db n (user_id u) pk s) as [d c|d] eqn:E.
  - right. exists u, pk, s, d, c. repeat split; auto. destruct c; reflexivity.
  - left. apply update_or_create_failed in E. subst d.
    simpl. repeat split; discriminate.
Qed.

(** The shapes a [RatingViewSet.create] call can take. *)
Lemma create_rating_cases db usr n photo_param score_param :
  (fst (create_rating db usr n photo_param score_param) = db /\
   (snd (create_rating db usr n photo_param score_param) = HTTP_400_BAD_REQUEST \/
    snd (create_rating db usr n photo_param score_param) = HTTP_401_UNAUTHORIZED)) \/
  (exists u pk s,
     usr = Some u /\ photo_param = Some pk /\ score_param = Some s /\
     1 <= s <= 5 /\
     ((exists db' c, update_or_create db n (user_id u) pk s = saved db' c /\
                     create_rating db usr n photo_param score_param =
                       (db', HTTP_201_CREATED)) \/
      (update_or_create db n (user_id u) pk s = failed db /\
       create_rating db usr n photo_param score_param =
         (db, HTTP_500_INTERNAL_SERVER_ERROR)))).
Proof.
  unfold create_rating.
  destruct usr as [u|]; [|left; simpl; auto].
  destruct photo_param as [pk|]; [|left; simpl; auto].
  destruct score_param as [s|]; [|left; simpl; auto].
  destruct (get_photo db pk) as [photo|] eqn:Hp; [|left; simpl; auto].
  unfold validate_score.
  destruct ((s <? 1) || (5 <? s)) eqn:V; [left; simpl; auto|].
  apply orb_false_iff in V. destruct V as [V1 V2].
  apply Z.ltb_ge in V1. apply Z.ltb_ge in V2.
  rewrite (get_photo_id _ _ _ Hp).
  right. exists u, pk, s. repeat split; auto.
  destruct (update_or_create db n (user_id u) pk s) as [d c|d] eqn:E.
  - left. exists d, c. auto.
  - right. apply update_or_create_failed in E. subst d. auto.
Qed.

Lemma ratings_by_insert db r u pk :
  ratings_by (insert_rating db r) u pk =
  ratings_by db u pk ++ (if rated_by u pk r then [r] else []).
Proof. unfold ratings_by, insert_rating. simpl. now rewrite filter_app. Qed.

Lemma ratings_written db pk db' :
  update_average_rating db pk = Some db' ->
  (forall u q, ratings_by db' u q = ratings_by db u q) /\
  (forall q, ratings_of db' q = ratings_of db q).
Proof.
  intros H. apply update_average_rating_ratings in H.
  unfold ratings_by, ratings_of. rewrite H. auto.
Qed.

(** The upsert keeps [unique_together] without leaning on the
    database constraint. *)
Lemma update_or_create_unique_together db n u pk s db' c :
  update_or_create db n u pk s = saved db' c ->
  unique_together db -> unique_together db'.
Proof.
  intros Hs Hu u' pk'. apply update_or_create_saved in Hs.
  destruct Hs as [[E [_ Hup]]|[r [E [_ Hup]]]];
    destruct (ratings_written _ _ _ Hup) as [Hby _]; rewrite Hby.
  - rewrite ratings_by_insert.
    destruct (rated_by u' pk' (mkRating n pk u s)) eqn:M.
    + unfold rated_by in M. simpl in M. apply andb_true_iff in M.
      destruct M as [M1 M2]. apply Z.eqb_eq in M1, M2. subst u' pk'.
      rewrite E. simpl. lia.
    + rewrite app_nil_r. apply Hu.
  - unfold ratings_by, update_rating_score. simpl.
    rewrite filter_mine_set_score, length_map. apply Hu.
Qed.

Lemma filter_filter_length {A} (f g : A -> bool) l :
  (length (filter f (filter g l)) <= length (filter f l))%nat.
Proof.
  induction l as [|a l IH]; simpl; auto.
  destruct (g a); simpl; destruct (f a); simpl; lia.
Qed.

Lemma apply_op_unique_together db op :
  unique_together db -> unique_together (apply_op db op).
Proof.
  intros Hu. destruct op as [usr n pp sp|usr n pp sp|usr rid]; simpl.
  - destruct (rate_photo_cases db usr n pp sp)
      as [[E _]|[u [pk [s [db' [c [_ [_ [_ [Hs E]]]]]]]]]].
    + now rewrite E.
    + rewrite E. simpl. eapply update_or_create_unique_together; eauto.
  - destruct (create_rating_cases db usr n pp sp)
      as [[E _]|[u [pk [s [_ [_ [_ [_ [[db' [c [Hs E]]]|[_ E]]]]]]]]]].
    + now rewrite E.
    + rewrite E. simpl. eapply update_or_create_unique_together; eauto.
    + now rewrite E.
  - unfold destroy_rating. destruct usr; simpl; auto.
    destruct (find _ (ratings db)); simpl; auto.
    intros u' pk'. unfold ratings_by. simpl.
    eapply Nat.le_trans; [apply filter_filter_length|apply Hu].
Qed.

(** X10. Every sequence of rating operations of the public interface
    ([rate_photo], [RatingViewSet.create] and [destroy], in any order
    and with any outcome) keeps at most one rating per photo and user. *)
Theorem rating_ops_keep_unique_together :
  forall ops db,
    unique_together db -> unique_together (apply_ops db ops).
Proof.
  unfold apply_ops.
  induction ops as [|op ops IH]; intros db Hu; simpl; auto.
  apply IH. now apply apply_op_unique_together.
Qed.

Lemma rating_ops_keep_unique_together_witness :
  unique_together
    (apply_ops sample_db
       [OpRatePhoto (Some sample_user) 100 (Some 1) (Some 3);
        OpCreate (Some sample_user) 101 (Some 1) (Some 5);
        OpDestroy (Some sample_user) 100]).
Proof.
  apply (rating_ops_keep_unique_together
           [OpRatePhoto (Some sample_user) 100 (Some 1) (Some 3);
            OpCreate (Some sample_user) 101 (Some 1) (Some 5);
            OpDestroy (Some sample_user) 100] sample_db).
  intros u pk. simpl. lia.
Defined.

Lemma ratings_of_other_photo_insert db r pk q :
  rating_photo r = pk -> q <> pk ->
  ratings_of (insert_rating db r) q = ratings_of db q.
Proof.
  intros Hr Hq. rewrite ratings_of_insert, Hr.
  destruct (pk =? q) eqn:E; [apply Z.eqb_eq in E; congruence|].
  apply app_nil_r.
Qed.

Lemma ratings_of_other_photo_update db r s q :
  rating_ids_unique db -> In r (ratings db) -> q <> rating_photo r ->
  ratings_of (update_rating_score db (rating_id r) s) q = ratings_of db q.
Proof.
  intros Hnd Hin Hq. rewrite ratings_of_update.
  rewrite <- (map_id (ratings_of db q)) at 2.
  apply map_ext_in. intros a Ha. unfold ratings_of in Ha.
  apply filter_In in Ha. destruct Ha as [Ha Hp]. apply Z.eqb_eq in Hp.
  unfold set_score. destruct (rating_id a =? rating_id r) eqn:E; auto.
  apply Z.eqb_eq in E.
  assert (a = r) by (eapply unique_id_eq; eauto). subst a. congruence.
Qed.

Lemma update_or_create_consistent_all db n u pk s db' c :
  update_or_create db n u pk s = saved db' c ->
  rating_ids_unique db ->
  averages_consistent db -> averages_consistent db'.
Proof.
  intros Hs Hnd Hc.
  assert (Hother : exists dbw,
            update_average_rating dbw pk = Some db' /\
            photos dbw = photos db /\
            (forall q, q <> pk -> ratings_of dbw q = ratings_of db q)).
  { apply update_or_create_saved in Hs.
    destruct Hs as [[E [_ Hup]]|[r [E [_ Hup]]]].
    - eexists; split; [exact Hup|]. split; auto.
      intros q Hq. now apply (ratings_of_other_photo_insert _ _ pk).
    - eexists; split; [exact Hup|]. split; auto.
      intros q Hq. destruct (filter_mine_In _ _ _ _ E) as [Hin Hm].
      unfold rated_by in Hm. apply andb_true_iff in Hm. destruct Hm as [_ Hm].
      apply Z.eqb_eq in Hm.
      apply ratings_of_other_photo_update; auto. congruence. }
  destruct Hother as [dbw [Hup [Hph Hrs]]].
  destruct (ratings_written _ _ _ Hup) as [_ Hof].
  unfold update_average_rating in Hup.
  destruct (fits_decimal_3_2 _); [|discriminate].
  inversion Hup; subst db'; clear Hup.
  intros p' Hp'. simpl in Hp'. apply in_map_iff in Hp'.
  destruct Hp' as [p0 [<- Hp0]]. rewrite Hph in Hp0.
  unfold average_consistent. rewrite Hof, set_average_rating_id.
  unfold set_average_rating. destruct (photo_id p0 =? pk) eqn:E.
  - apply Z.eqb_eq in E. simpl. now rewrite E.
  - apply Z.eqb_neq in E. rewrite Hrs by exact E. now apply Hc.
Qed.

Lemma update_or_create_ids db n u pk s db' c :
  update_or_create db n u pk s = saved db' c ->
  map rating_id (ratings db') = map rating_id (ratings db) \/
  map rating_id (ratings db') = map rating_id (ratings db) ++ [n].
Proof.
  intros Hs. apply update_or_create_saved in Hs.
  destruct Hs as [[E [_ Hup]]|[r [E [_ Hup]]]];
    apply update_average_rating_ratings in Hup; rewrite Hup; simpl.
  - right. now rewrite map_app.
  - left. apply map_set_score_ids.
Qed.

(** What one rating write (not a delete) keeps. *)
Lemma save_op_keeps db op :
  is_destroy op = false ->
  NoDup (map rating_id (ratings db) ++ new_id_of op) ->
  averages_consistent db ->
  averages_consistent (apply_op db op) /\
  (map rating_id (ratings (apply_op db op)) = map rating_id (ratings db) \/
   map rating_id (ratings (apply_op db op)) = map rating_id (ratings db) ++ new_id_of op).
Proof.
  intros Hd Hnd Hc.
  assert (Hid : rating_ids_unique db) by (eapply NoDup_app_remove_r; eauto).
  destruct op as [usr n pp sp|usr n pp sp|usr rid]; simpl in *; [| |discriminate].
  - destruct (rate_photo_cases db usr n pp sp)
      as [[E _]|[u [pk [s [db' [c [_ [_ [_ [Hs E]]]]]]]]]]; rewrite E; auto.
    simpl. split.
    + eapply update_or_create_consistent_all; eauto.
    + eapply update_or_create_ids; eauto.
  - destruct (create_rating_cases db usr n pp sp)
      as [[E _]|[u [pk [s [_ [_ [_ [_ [[db' [c [Hs E]]]|[_ E]]]]]]]]]];
      rewrite E; auto.
    simpl. split.
    + eapply update_or_create_consistent_all; eauto.
    + eapply update_or_create_ids; eauto.
Qed.

(** X11. Starting from a database in which every photo's stored
    average is the one its ratings give, every sequence of
    [rate_photo] and [RatingViewSet.create] calls (no delete), with
    fresh ids for the rows they create and whatever their outcomes,
    ends in such a database. *)
Theorem save_ops_keep_averages :
  forall ops db,
    Forall (fun op => is_destroy op = false) ops ->
    NoDup (map rating_id (ratings db) ++ new_ids ops) ->
    averages_consistent db ->
    averages_consistent (apply_ops db ops).
Proof.
  unfold apply_ops.
  induction ops as [|op ops IH]; intros db Hsave Hnd Hc; simpl; auto.
  inversion Hsave as [|? ? Hop Hrest]; subst.
  unfold new_ids in Hnd. simpl in Hnd. fold (new_ids ops) in Hnd.
  rewrite app_assoc in Hnd.
  destruct (save_op_keeps db op Hop (NoDup_app_remove_r _ _ Hnd) Hc) as [Hc' Hids].
  apply IH; auto.
  destruct Hids as [E|E]; rewrite E; auto.
  apply NoDup_app_remove_l with (l := new_id_of op).
  eapply Permutation_NoDup; [|exact Hnd].
  rewrite <- app_assoc. apply Permutation_app_swap_app.
Qed.

Lemma save_ops_keep_averages_witness :
  averages_consistent
    (apply_ops sample_db
       [OpRatePhoto (Some sample_user) 100 (Some 1) (Some 2);
        OpCreate (Some creator_user) 101 (Some 1) (Some 4);
        OpRatePhoto (Some sample_user) 102 (Some 1) (Some 4)]).
Proof.
  apply (save_ops_keep_averages
           [OpRatePhoto (Some sample_user) 100 (Some 1) (Some 2);
            OpCreate (Some creator_user) 101 (Some 1) (Some 4);
            OpRatePhoto (Some sample_user) 102 (Some 1) (Some 4)] sample_db).
  - repeat constructor.
  - simpl. repeat constructor; simpl; intuition discriminate.
  - intros p Hp. simpl in Hp. destruct Hp as [<-|[]]. reflexivity.
Defined.

Lemma Forall_set_score (P : Z -> Prop) rid s l :
  P s -> Forall (fun r => P (score r)) l ->
  Forall (fun r => P (score r)) (map (set_score rid s) l).
Proof.
  intros Hs. induction 1 as [|r l Hr _ IH]; simpl; constructor; auto.
  unfold set_score. destruct (rating_id r =? rid); auto.
Qed.

Lemma scores_valid_fit db pk : scores_valid db -> scores_fit (ratings_of db pk).
Proof.
  unfold scores_valid, scores_fit, ratings_of. intros H.
  apply Forall_forall. intros r Hr. apply filter_In in Hr. destruct Hr as [Hr _].
  rewrite Forall_forall in H. specialize (H r Hr). unfold score_fits. lia.
Qed.

(** X12. The serializer path keeps the stored scores valid and does
    not fail: on a database whose scores are all within 1..5 and that
    has at most one rating per photo and user, [RatingViewSet.create]
    answers 201, 400 or 401, never 500, and leaves every stored score
    within 1..5. *)
Theorem create_rating_keeps_scores_valid :
  forall db usr n photo_param score_param,
    scores_valid db ->
    unique_together db ->
    scores_valid (fst (create_rating db usr n photo_param score_param)) /\
    snd (create_rating db usr n photo_param score_param)
      <> HTTP_500_INTERNAL_SERVER_ERROR.
Proof.
  intros db usr n pp sp Hv Hu.
  destruct (create_rating_cases db usr n pp sp)
    as [[E [S|S]]|[u [pk [s [_ [_ [_ [Hs [[db' [c [Hsv E]]]|[Hf E]]]]]]]]]].
  - rewrite E, S. split; [auto|discriminate].
  - rewrite E, S. split; [auto|discriminate].
  - rewrite E. simpl. split; [|discriminate].
    apply update_or_create_saved in Hsv.
    unfold scores_valid in *.
    destruct Hsv as [[_ [_ Hup]]|[r [_ [_ Hup]]]];
      apply update_average_rating_ratings in Hup; rewrite Hup; simpl.
    + apply Forall_app. split; auto.
    + now apply (Forall_set_score (fun x => 1 <= x <= 5)).
  - exfalso.
    destruct (update_or_create_succeeds db n (user_id u) pk s (Hu _ _))
      as [db' E'].
    + unfold score_fits. lia.
    + now apply scores_valid_fit.
    + congruence.
Qed.

Lemma create_rating_keeps_scores_valid_witness :
  scores_valid (fst (create_rating sample_db (Some sample_user) 100 (Some 1) (Some 4))) /\
  snd (create_rating sample_db (Some sample_user) 100 (Some 1) (Some 4))
    <> HTTP_500_INTERNAL_SERVER_ERROR.
Proof.
  apply (create_rating_keeps_scores_valid sample_db (Some sample_user) 100
           (Some 1) (Some 4)).
  - constructor.
  - intros u pk. simpl. lia.
Defined.

Lemma upsert_own_row db n u pk s db' c :
  update_or_create db n u pk s = saved db' c ->
  (exists r, ratings_by db' u pk = [r] /\ score r = s) /\
  (c = true <-> ratings_by db u pk = []).
Proof.
  intros Hs. apply update_or_create_saved in Hs.
  destruct Hs as [[E [-> Hup]]|[r [E [-> Hup]]]];
    destruct (ratings_written _ _ _ Hup) as [Hby _]; rewrite Hby.
  - rewrite ratings_by_insert, E. unfold rated_by. simpl.
    rewrite !Z.eqb_refl. simpl. split; [eexists; split; eauto|tauto].
  - unfold ratings_by, update_rating_score in *. simpl.
    rewrite filter_mine_set_score, E. simpl. split.
    + eexists; split; eauto. unfold set_score. now rewrite Z.eqb_refl.
    + split; discriminate.
Qed.

(** X13. [rate_photo] writes only when it succeeds: unless it answers
    200 or 201 the database is left exactly as it was (a failure while
    recomputing the average undoes the rating as well).  It answers 201
    only when the user had no rating of the photo and 200 only when the
    user had one. *)
Theorem rate_photo_writes_on_success_only :
  forall db usr n photo_param score_param,
    let result := rate_photo db usr n photo_param score_param in
    (snd result <> HTTP_200_OK -> snd result <> HTTP_201_CREATED ->
     fst result = db) /\
    (snd result = HTTP_201_CREATED ->
     exists u pk, usr = Some u /\ photo_param = Some pk /\
                  ratings_by db (user_id u) pk = []) /\
    (snd result = HTTP_200_OK ->
     exists u pk r, usr = Some u /\ photo_param = Some pk /\
                    ratings_by db (user_id u) pk = [r]).
Proof.
  intros db usr n pp sp. cbv zeta.
  destruct (rate_photo_cases db usr n pp sp)
    as [[E [N1 N2]]|[u [pk [s [db' [c [Eu [Ep [_ [Hs E]]]]]]]]]].
  - repeat split; auto; intros; contradiction.
  - rewrite E. simpl.
    pose proof (update_or_create_saved _ _ _ _ _ _ _ Hs) as Hc.
    destruct c; (repeat split; [intros; congruence|intros H|intros H]);
      try discriminate.
    + exists u, pk. repeat split; auto.
      destruct Hc as [[Hc _]|[r [_ [Hc _]]]]; [auto|discriminate].
    + destruct Hc as [[_ [Hc _]]|[r [Hc _]]]; [discriminate|].
      exists u, pk, r. auto.
Qed.

(** X14. A successful rating is what the photo detail then shows as
    the caller's own rating: after [rate_photo] by [u] with score [s]
    answered 200 or 201, [get_user_rating] of that photo for [u] is
    [s]. *)
Theorem rate_photo_then_get_user_rating :
  forall db u n pk s obj,
    photo_id obj = pk ->
    (snd (rate_photo db (Some u) n (Some pk) (Some s)) = HTTP_200_OK \/
     snd (rate_photo db (Some u) n (Some pk) (Some s)) = HTTP_201_CREATED) ->
    get_user_rating (fst (rate_photo db (Some u) n (Some pk) (Some s))) obj (Some u) =
    user_rating_score s.
Proof.
  intros db u n pk s obj Hobj Hst.
  destruct (rate_photo_cases db (Some u) n (Some pk) (Some s))
    as [[_ [N1 N2]]|[u' [pk' [s' [db' [c [Eu [Ep [Es [Hs E]]]]]]]]]].
  - destruct Hst; contradiction.
  - inversion Eu; inversion Ep; inversion Es; subst u' pk' s'.
    rewrite E. simpl.
    destruct (upsert_own_row _ _ _ _ _ _ _ Hs) as [[r [Hr Hsc]] _].
    unfold get_user_rating. rewrite Hobj, Hr. now rewrite Hsc.
Qed.

Lemma rate_photo_then_get_user_rating_witness :
  get_user_rating (fst (rate_photo sample_db (Some sample_user) 100 (Some 1) (Some 4)))
                  sample_photo (Some sample_user) =
  user_rating_score 4.
Proof.
  apply (rate_photo_then_get_user_rating sample_db sample_user 100 1 4 sample_photo).
  - reflexivity.
  - right. reflexivity.
Defined.

Lemma rate_photo_writes_on_success_only_witness :
  let result := rate_photo sample_db (Some sample_user) 100 (Some 1) (Some 99) in
  (snd result <> HTTP_200_OK -> snd result <> HTTP_201_CREATED ->
   fst result = sample_db) /\
  (snd result = HTTP_201_CREATED ->
   exists u pk, Some sample_user = Some u /\ Some 1 = Some pk /\
                ratings_by sample_db (user_id u) pk = []) /\
  (snd result = HTTP_200_OK ->
   exists u pk r, Some sample_user = Some u /\ Some 1 = Some pk /\
                  ratings_by sample_db (user_id u) pk = [r]).
Proof.
  apply (rate_photo_writes_on_success_only sample_db (Some sample_user) 100
           (Some 1) (Some 99)).
Defined.

(** X15. After a successful [rate_photo] the photo has at least one
    rating, its stored average has at most three digits, and it is
    within 0.0056 of the exact mean of its scores: the mean is first
    rounded to three significant digits and then to hundredths, so that
    the stored value may be further from the mean than half a
    hundredth. *)
Theorem stored_average_precision :
  forall db u n pk s,
    let result := rate_photo db (Some u) n (Some pk) (Some s) in
    snd result = HTTP_200_OK \/ snd result = HTTP_201_CREATED ->
    exists p,
      get_photo (fst result) pk = Some p /\
      0 < rating_count (fst result) pk /\
      Z.abs (average_rating p) <= 999 /\
      100 * Z.abs (average_rating p * rating_count (fst result) pk
                   - 100 * rating_sum (fst result) pk)
        <= 56 * rating_count (fst result) pk.
Proof.
  intros db u n pk s result Hst. subst result.
  destruct (rate_photo db (Some u) n (Some pk) (Some s)) as [db' st] eqn:E.
  cbn [fst snd] in *.
  destruct (rate_photo_recomputes _ _ _ _ _ _ _ E Hst) as [p [Hp Hc]].
  exists p. split; auto.
  destruct (rate_photo_cases db (Some u) n (Some pk) (Some s))
    as [[_ [N1 N2]]|[u' [pk' [s' [d [c [Eu [Ep [Es [Hs E']]]]]]]]]].
  { rewrite E in N1, N2. cbn [snd] in *. destruct Hst; contradiction. }
  inversion Eu; inversion Ep; inversion Es; subst u' pk' s'.
  rewrite E in E'. inversion E'; subst d.
  assert (Hpos : 0 < rating_count db' pk).
  { destruct (upsert_own_row _ _ _ _ _ _ _ Hs) as [[r [Hr _]] _].
    rewrite (rating_count_split db' (user_id u) pk), Hr. simpl. lia. }
  split; auto.
  assert (Hfit : fits_decimal_3_2 (average_of (ratings_of db' pk)) = true).
  { apply update_or_create_saved in Hs.
    destruct Hs as [[_ [_ Hup]]|[r [_ [_ Hup]]]];
      eapply update_average_rating_fits; eauto. }
  unfold average_consistent in Hc. rewrite (get_photo_id _ _ _ Hp) in Hc.
  unfold rating_count, rating_sum in *. rewrite Hc. split.
  - unfold fits_decimal_3_2 in Hfit. now apply Z.leb_le in Hfit.
  - now apply average_of_precision.
Qed.

Lemma stored_average_precision_witness :
  let result := rate_photo sample_db (Some sample_user) 100 (Some 1) (Some 4) in
  exists p,
    get_photo (fst result) 1 = Some p /\
    0 < rating_count (fst result) 1 /\
    Z.abs (average_rating p) <= 999 /\
    100 * Z.abs (average_rating p * rating_count (fst result) 1
                 - 100 * rating_sum (fst result) 1)
      <= 56 * rating_count (fst result) 1.
Proof.
  apply (stored_average_precision sample_db sample_user 100 1 4).
  right. vm_compute. reflexivity.
Defined.

(* ================================================================= *)
(** * Permissions *)
(* ================================================================= *)

(** X16. Writing to a photo or to a comment is for its owner: an
    update, partial update or delete passes the permission classes of
    [PhotoViewSet] (of [CommentViewSet]) exactly when the caller is
    authenticated and is the photo's creator (the comment's user); and
    creating a photo passes exactly for an authenticated user with the
    creator role. *)
Theorem photo_and_comment_writes_need_owner :
  forall a m usr,
    writing_action a m ->
    (forall p, permitted (PhotoViewSet_get_permissions a) m usr (PhotoInstance p) =
               same_user (creator p) usr) /\
    (forall c, permitted (CommentViewSet_get_permissions a) m usr (CommentInstance c) =
               same_user (comment_user c) usr) /\
    permitted_request (PhotoViewSet_get_permissions action_create) POST usr =
      is_creator_user usr.
Proof.
  intros a m usr Ha.
  assert (K : forall owner, is_authenticated usr && true && (true && (same_user owner usr && true))
                            = same_user owner usr).
  { intros owner. destruct usr; simpl; auto. now rewrite andb_true_r. }
  destruct Ha as [[-> ->]|[[-> ->]|[-> ->]]];
    (split; [intros p; apply (K (creator p))|];
     split; [intros c; apply (K (comment_user c))|];
     destruct usr as [u|]; simpl; auto; now rewrite andb_true_r).
Qed.

Lemma photo_and_comment_writes_need_owner_witness :
  (forall p, permitted (PhotoViewSet_get_permissions action_destroy) DELETE
                       (Some sample_user) (PhotoInstance p) =
             same_user (creator p) (Some sample_user)) /\
  (forall c, permitted (CommentViewSet_get_permissions action_destroy) DELETE
                       (Some sample_user) (CommentInstance c) =
             same_user (comment_user c) (Some sample_user)) /\
  permitted_request (PhotoViewSet_get_permissions action_create) POST (Some sample_user) =
    is_creator_user (Some sample_user).
Proof.
  apply (photo_and_comment_writes_need_owner action_destroy DELETE (Some sample_user)).
  right. right. split; reflexivity.
Defined.

(** X17. Ratings have no owner check: an update, partial update or
    delete of a rating passes the permission classes of
    [RatingViewSet] for every authenticated caller, whoever the
    rating's user is, and for no anonymous caller. *)
Theorem rating_writes_need_no_owner :
  forall a m usr r,
    writing_action a m ->
    permitted (RatingViewSet_get_permissions a) m usr (RatingInstance r) =
    is_authenticated usr.
Proof.
  intros a m usr r Ha.
  destruct Ha as [[-> ->]|[[-> ->]|[-> ->]]];
    destruct usr; reflexivity.
Qed.

Lemma rating_writes_need_no_owner_witness :
  permitted (RatingViewSet_get_permissions action_destroy) DELETE
            (Some creator_user) (RatingInstance (mkRating 100 1 7 5)) =
  is_authenticated (Some creator_user).
Proof.
  apply (rating_writes_need_no_owner action_destroy DELETE (Some creator_user)
           (mkRating 100 1 7 5)).
  right. right. split; reflexivity.
Defined.

Lemma filter_remove_one (f : Rating -> bool) (l : list Rating) r :
  NoDup (map rating_id l) -> In r l -> f r = true ->
  S (length (filter f (filter (fun a => negb (rating_id a =? rating_id r)) l))) =
  length (filter f l).
Proof.
  induction l as [|a l IH]; simpl; [tauto|].
  intros Hnd Hin Hf. inversion Hnd as [|? ? Hnot Hnd']; subst.
  destruct Hin as [->|Hin].
  - rewrite Z.eqb_refl, Hf. simpl. f_equal. f_equal.
    clear IH Hnd Hnd' Hf. induction l as [|b l IH]; simpl; auto.
    destruct (rating_id b =? rating_id r) eqn:E.
    + apply Z.eqb_eq in E. exfalso. apply Hnot. simpl. auto.
    + simpl. rewrite IH; auto. intros H. apply Hnot. simpl. auto.
  - destruct (rating_id a =? rating_id r) eqn:E.
    + apply Z.eqb_eq in E. exfalso. apply Hnot. rewrite E. now apply in_map.
    + simpl. destruct (f a); simpl; rewrite IH; auto.
Qed.

(** X18. Any authenticated user can delete any rating.  For a rating
    that exists, [destroy] by whatever user answers 204, removes that
    row and no other, leaves the photo table as it was (the average is
    not recomputed) and lowers the photo's rating count by one. *)
Theorem destroy_rating_by_any_user :
  forall db u r,
    rating_ids_unique db ->
    In r (ratings db) ->
    let result := destroy_rating db (Some u) (rating_id r) in
    snd result = HTTP_204_NO_CONTENT /\
    ~ In r (ratings (fst result)) /\
    (forall r', rating_id r' <> rating_id r ->
                (In r' (ratings (fst result)) <-> In r' (ratings db))) /\
    photos (fst result) = photos db /\
    rating_count (fst result) (rating_photo r) + 1 = rating_count db (rating_photo r).
Proof.
  intros db u r Hnd Hin. cbv zeta. unfold destroy_rating.
  destruct (find (fun a => rating_id a =? rating_id r) (ratings db)) eqn:E.
  2:{ exfalso. apply (find_none _ _ E) in Hin. now rewrite Z.eqb_refl in Hin. }
  simpl. split; [reflexivity|]. split; [|split; [|split; [reflexivity|]]].
  - intros H. apply filter_In in H. destruct H as [_ H].
    now rewrite Z.eqb_refl in H.
  - intros r' Hne. split; intros H.
    + apply filter_In in H. tauto.
    + apply filter_In. split; auto.
      apply negb_true_iff. now apply Z.eqb_neq.
  - unfold rating_count, ratings_of. simpl.
    rewrite <- (filter_remove_one (fun a => rating_photo a =? rating_photo r)
                                  (ratings db) r Hnd Hin (Z.eqb_refl _)).
    lia.
Qed.

Lemma destroy_rating_by_any_user_witness :
  let db := fst (rate_photo sample_db (Some sample_user) 100 (Some 1) (Some 5)) in
  let result := destroy_rating db (Some creator_user) (rating_id (mkRating 100 1 7 5)) in
  snd result = HTTP_204_NO_CONTENT /\
  ~ In (mkRating 100 1 7 5) (ratings (fst result)) /\
  (forall r', rating_id r' <> rating_id (mkRating 100 1 7 5) ->
              (In r' (ratings (fst result)) <-> In r' (ratings db))) /\
  photos (fst result) = photos db /\
  rating_count (fst result) (rating_photo (mkRating 100 1 7 5)) + 1 =
    rating_count db (rating_photo (mkRating 100 1 7 5)).
Proof.
  apply (destroy_rating_by_any_user
           (fst (rate_photo sample_db (Some sample_user) 100 (Some 1) (Some 5)))
           creator_user (mkRating 100 1 7 5)).
  - vm_compute. constructor; [simpl; tauto|constructor].
  - vm_compute. left. reflexivity.
Defined.

(* ================================================================= *)
(** * Comments *)
(* ================================================================= *)

Lemma comment_unique_id_eq (l : list Comment) a c :
  NoDup (map comment_id l) -> In a l -> In c l -> comment_id a = comment_id c -> a = c.
Proof.
  induction l as [|b l IH]; simpl; [tauto|].
  intros Hnd Ha Hc Heq. inversion Hnd as [|? ? Hnot Hnd']; subst.
  destruct Ha as [->|Ha], Hc as [->|Hc]; auto.
  - exfalso. apply Hnot. rewrite Heq. now apply in_map.
  - exfalso. apply Hnot. rewrite <- Heq. now apply in_map.
Qed.

Lemma find_comment (f : Comment -> bool) l c :
  NoDup (map comment_id l) -> In c l -> f c = true ->
  find (fun x => comment_id x =? comment_id c) (filter f l) = Some c.
Proof.
  intros Hnd Hin Hf.
  destruct (find (fun x => comment_id x =? comment_id c) (filter f l)) as [x|] eqn:E.
  - apply find_some in E. destruct E as [Hx Hid]. apply Z.eqb_eq in Hid.
    apply filter_In in Hx. destruct Hx as [Hx _].
    f_equal. eapply comment_unique_id_eq; eauto.
  - exfalso. assert (Hc : In c (filter f l)) by (apply filter_In; auto).
    apply (find_none _ _ E) in Hc. now rewrite Z.eqb_refl in Hc.
Qed.

Lemma perform_destroy_ids l c now :
  map comment_id (perform_destroy l c now) = map comment_id l.
Proof.
  unfold perform_destroy. rewrite map_map. apply map_ext_in. intros a _.
  destruct (comment_id a =? comment_id c) eqn:E; auto.
  apply Z.eqb_eq in E. simpl. auto.
Qed.

Lemma perform_destroy_In l c now x :
  NoDup (map comment_id l) -> In c l ->
  (In x (perform_destroy l c now) <->
   x = mark_deleted now c \/ (In x l /\ comment_id x <> comment_id c)).
Proof.
  intros Hnd Hc. unfold perform_destroy. rewrite in_map_iff. split.
  - intros [a [E Ha]]. destruct (comment_id a =? comment_id c) eqn:Ea.
    + left. auto.
    + right. subst x. split; auto. now apply Z.eqb_neq.
  - intros [->|[Hx Hne]].
    + exists c. rewrite Z.eqb_refl. auto.
    + exists x. apply Z.eqb_neq in Hne. rewrite Hne. auto.
Qed.

Lemma perform_destroy_count (g : Comment -> bool) l c now :
  NoDup (map comment_id l) -> In c l ->
  g c = true -> g (mark_deleted now c) = false ->
  S (length (filter g (perform_destroy l c now))) = length (filter g l).
Proof.
  unfold perform_destroy.
  induction l as [|a l IH]; simpl; [tauto|].
  intros Hnd Hin Hg Hd. inversion Hnd as [|? ? Hnot Hnd']; subst.
  destruct Hin as [->|Hin].
  - rewrite Z.eqb_refl, Hd, Hg.
    assert (E : map (fun x => if comment_id x =? comment_id c
                              then mark_deleted now c else x) l = l).
    { rewrite <- (map_id l) at 2. apply map_ext_in. intros b Hb.
      destruct (comment_id b =? comment_id c) eqn:E; auto.
      apply Z.eqb_eq in E. exfalso. apply Hnot. rewrite <- E. now apply in_map. }
    rewrite E. reflexivity.
  - destruct (comment_id a =? comment_id c) eqn:E.
    + apply Z.eqb_eq in E. exfalso. apply Hnot. rewrite E. now apply in_map.
    + destruct (g a); simpl; rewrite IH; auto.
Qed.

Lemma perform_destroy_count_same (g : Comment -> bool) l c now :
  NoDup (map comment_id l) -> In c l ->
  g (mark_deleted now c) = g c ->
  length (filter g (perform_destroy l c now)) = length (filter g l).
Proof.
  unfold perform_destroy.
  induction l as [|a l IH]; simpl; [tauto|].
  intros Hnd Hin Hg. inversion Hnd as [|? ? Hnot Hnd']; subst.
  destruct Hin as [->|Hin].
  - rewrite Z.eqb_refl, Hg.
    assert (E : map (fun x => if comment_id x =? comment_id c
                              then mark_deleted now c else x) l = l).
    { rewrite <- (map_id l) at 2. apply map_ext_in. intros b Hb.
      destruct (comment_id b =? comment_id c) eqn:E; auto.
      apply Z.eqb_eq in E. exfalso. apply Hnot. rewrite <- E. now apply in_map. }
    rewrite E. destruct (g c); reflexivity.
  - destruct (comment_id a =? comment_id c) eqn:E.
    + apply Z.eqb_eq in E. exfalso. apply Hnot. rewrite E. now apply in_map.
    + destruct (g a); simpl; rewrite IH; auto.
Qed.

Lemma CommentViewSet_destroy_own comments u c now :
  comment_ids_unique comments -> In c comments ->
  is_deleted c = false -> comment_user c = user_id u ->
  CommentViewSet_destroy comments (Some u) (comment_id c) now =
    (perform_destroy comments c now, destroyed_204).
Proof.
  intros Hnd Hin Hdel Hown.
  unfold CommentViewSet_destroy. simpl. unfold CommentViewSet_queryset.
  rewrite (find_comment (fun x => negb (is_deleted x)) comments c Hnd Hin)
    by (now rewrite Hdel).
  unfold permitted. simpl.
  cbv [IsOwnerOrReadOnly_has_object_permission SAFE_METHODS same_user].
  now rewrite Hown, Z.eqb_refl.
Qed.

(** X19. Deleting a comment is a soft delete.  When its author deletes
    a comment that is not yet deleted, at time [now], the answer is
    204, no row leaves the table, the comment's row is kept with
    [is_deleted] set and [updated_at] moved to [now] (the save rewrites
    that column) and its other fields as they were, every other row is
    untouched, the photo's comment count goes down by one, and a second
    delete of the same comment is answered 404. *)
Theorem comment_destroy_is_soft :
  forall comments u c photo now later,
    comment_ids_unique comments ->
    In c comments ->
    is_deleted c = false ->
    comment_user c = user_id u ->
    photo_id photo = comment_photo c ->
    let result := CommentViewSet_destroy comments (Some u) (comment_id c) now in
    snd result = destroyed_204 /\
    map comment_id (fst result) = map comment_id comments /\
    (forall x, In x (fst result) <->
               x = mkComment (comment_id c) (comment_photo c) (comment_user c)
                             (content c) (parent_comment c) (comment_created_at c)
                             now (is_edited c) true \/
               (In x comments /\ comment_id x <> comment_id c)) /\
    S (get_comment_count (fst result) photo) = get_comment_count comments photo /\
    CommentViewSet_destroy (fst result) (Some u) (comment_id c) later =
      (fst result, not_found_404).
Proof.
  intros comments u c photo now later Hnd Hin Hdel Hown Hphoto. cbv zeta.
  rewrite (CommentViewSet_destroy_own comments u c now Hnd Hin Hdel Hown).
  cbn [fst snd].
  split; [reflexivity|]. split; [apply perform_destroy_ids|].
  split; [intros x; now apply perform_destroy_In|]. split.
  - unfold get_comment_count. apply perform_destroy_count; auto.
    + now rewrite Hphoto, Z.eqb_refl, Hdel.
    + simpl. apply andb_false_r.
  - unfold CommentViewSet_destroy. simpl. unfold CommentViewSet_queryset.
    destruct (find (fun x => comment_id x =? comment_id c)
                   (filter (fun x => negb (is_deleted x)) (perform_destroy comments c now)))
      as [x|] eqn:F; [|reflexivity].
    exfalso. apply find_some in F. destruct F as [Hx Hid].
    apply Z.eqb_eq in Hid. apply filter_In in Hx. destruct Hx as [Hx Hnd'].
    apply perform_destroy_In in Hx; auto.
    destruct Hx as [->|[_ Hne]]; [discriminate|contradiction].
Qed.

Lemma sample_comments_unique : comment_ids_unique sample_comments.
Proof.
  unfold comment_ids_unique. simpl.
  constructor; [simpl; intros [H|[]]; discriminate|].
  constructor; [simpl; tauto|constructor].
Defined.

Lemma comment_destroy_is_soft_witness :
  let result := CommentViewSet_destroy sample_comments (Some sample_user)
                                       (comment_id sample_comment) 2000 in
  snd result = destroyed_204 /\
  map comment_id (fst result) = map comment_id sample_comments /\
  (forall x, In x (fst result) <->
             x = mkComment (comment_id sample_comment) (comment_photo sample_comment)
                           (comment_user sample_comment) (content sample_comment)
                           (parent_comment sample_comment)
                           (comment_created_at sample_comment)
                           2000 (is_edited sample_comment) true \/
             (In x sample_comments /\ comment_id x <> comment_id sample_comment)) /\
  S (get_comment_count (fst result) sample_photo) =
    get_comment_count sample_comments sample_photo /\
  CommentViewSet_destroy (fst result) (Some sample_user)
                         (comment_id sample_comment) 3000 =
    (fst result, not_found_404).
Proof.
  apply (comment_destroy_is_soft sample_comments sample_user sample_comment
           sample_photo 2000 3000).
  - exact sample_comments_unique.
  - simpl. left. reflexivity.
  - reflexivity.
  - reflexivity.
  - reflexivity.
Defined.

(** X20. A soft delete does not reach the replies: after a comment is
    deleted by its author the number of replies reported for it is
    what it was, and each of its replies is still in the table and
    still counted among the photo's comments. *)
Theorem comment_destroy_keeps_replies :
  forall comments u c now,
    comment_ids_unique comments ->
    In c comments ->
    is_deleted c = false ->
    comment_user c = user_id u ->
    is_reply_to (comment_id c) c = false ->
    let result := CommentViewSet_destroy comments (Some u) (comment_id c) now in
    get_reply_count (fst result) (mark_deleted now c) = get_reply_count comments c /\
    (forall reply photo,
       In reply comments -> is_reply_to (comment_id c) reply = true ->
       In reply (fst result) /\
       (is_deleted reply = false -> photo_id photo = comment_photo reply ->
        (1 <= get_comment_count (fst result) photo)%nat)).
Proof.
  intros comments u c now Hnd Hin Hdel Hown Hself. cbv zeta.
  rewrite (CommentViewSet_destroy_own comments u c now Hnd Hin Hdel Hown).
  cbn [fst snd]. split.
  - unfold get_reply_count. simpl.
    apply perform_destroy_count_same; auto.
    unfold is_reply_to in *. simpl. rewrite Hself. reflexivity.
  - intros reply photo Hr Hrep.
    assert (Hne : comment_id reply <> comment_id c).
    { intros Heq. assert (reply = c) by (eapply comment_unique_id_eq; eauto).
      subst reply. congruence. }
    assert (Hri : In reply (perform_destroy comments c now)).
    { apply perform_destroy_In; auto. }
    split; auto. intros Hnd' Hph. unfold get_comment_count.
    assert (Hf : In reply (filter (fun x => (comment_photo x =? photo_id photo) &&
                                            negb (is_deleted x))
                                  (perform_destroy comments c now))).
    { apply filter_In. split; auto. now rewrite Hph, Z.eqb_refl, Hnd'. }
    destruct (filter _ (perform_destroy comments c now)); [destruct Hf|simpl; lia].
Qed.

Lemma comment_destroy_keeps_replies_witness :
  let result := CommentViewSet_destroy sample_comments (Some sample_user)
                                       (comment_id sample_comment) 2000 in
  get_reply_count (fst result) (mark_deleted 2000 sample_comment) =
    get_reply_count sample_comments sample_comment /\
  (forall reply photo,
     In reply sample_comments ->
     is_reply_to (comment_id sample_comment) reply = true ->
     In reply (fst result) /\
     (is_deleted reply = false -> photo_id photo = comment_photo reply ->
      (1 <= get_comment_count (fst result) photo)%nat)).
Proof.
  apply (comment_destroy_keeps_replies sample_comments sample_user sample_comment 2000).
  - exact sample_comments_unique.
  - simpl. left. reflexivity.
  - reflexivity.
  - reflexivity.
  - reflexivity.
Defined.

Lemma StronglySorted_weaken {A} (R R' : A -> A -> Prop) l :
  (forall a b, R a b -> R' a b) -> StronglySorted R l -> StronglySorted R' l.
Proof.
  intros H. induction 1 as [|a l Hs IH Hall]; constructor; auto.
  eapply Forall_impl; [|exact Hall]. intros b. apply H.
Qed.

(** X21. The comments action of a photo lists exactly the comments of
    that photo that are not deleted and are not replies, oldest first. *)
Theorem photo_comments_listing :
  forall comments photo,
    StronglySorted (fun a b => comment_created_at a <= comment_created_at b)
                   (PhotoViewSet_comments comments photo) /\
    (forall c, In c (PhotoViewSet_comments comments photo) <->
               In c comments /\ comment_photo c = photo_id photo /\
               is_deleted c = false /\ parent_comment c = None).
Proof.
  intros comments photo. unfold PhotoViewSet_comments, order_by_created_at. split.
  - eapply StronglySorted_weaken;
      [|apply (order_by_desc_sorted (fun c => - comment_created_at c))].
    intros a b. unfold desc. lia.
  - intros c. split.
    + intros H.
      apply (Permutation_in _ (Permutation_sym (order_by_desc_perm _ _))) in H.
      apply filter_In in H. destruct H as [H1 H2].
      apply andb_true_iff in H2. destruct H2 as [H2 H3].
      apply andb_true_iff in H2. destruct H2 as [H2 H4].
      apply Z.eqb_eq in H2. apply negb_true_iff in H4.
      destruct (parent_comment c); [discriminate|]. auto.
    + intros [H1 [H2 [H3 H4]]].
      apply (Permutation_in _ (order_by_desc_perm _ _)).
      apply filter_In. split; auto.
      rewrite H2, Z.eqb_refl, H3, H4. reflexivity.
Qed.

Lemma substring_0_length_full n : forall s,
  (n <= String.length s)%nat -> String.length (substring 0 n s) = n.
Proof.
  induction n as [|n IH]; intros [|c s] H; simpl in *; try lia.
  rewrite IH; lia.
Qed.

Lemma string_length_append a b :
  String.length (a ++ b) = (String.length a + String.length b)%nat.
Proof. induction a as [|c a IH]; simpl; auto. Qed.

(** X22. The admin's comment preview is never longer than 53
    characters and always starts as the comment does: a comment of at
    most 50 characters is shown whole, a longer one as its first 50
    characters followed by three dots. *)
Theorem content_preview_bounded :
  forall c,
    (String.length (content_preview c) <= 53)%nat /\
    ((String.length (content c) <= 50)%nat -> content_preview c = content c) /\
    ((50 < String.length (content c))%nat ->
     String.length (content_preview c) = 53%nat /\
     exists head, is_prefix head (content c) /\ String.length head = 50%nat /\
                  content_preview c = (head ++ "...")%string).
Proof.
  intros c. unfold content_preview.
  destruct (50 <? String.length (content c))%nat eqn:E.
  - apply Nat.ltb_lt in E.
    assert (L : String.length (substring 0 50 (content c)) = 50%nat)
      by (apply substring_0_length_full; lia).
    split; [rewrite string_length_append, L; simpl; lia|].
    split; [intros H; lia|]. intros _.
    split; [rewrite string_length_append, L; reflexivity|].
    exists (substring 0 50 (content c)).
    split; [apply substring_0_prefix|]. split; [exact L|reflexivity].
  - apply Nat.ltb_ge in E.
    split; [lia|]. split; [reflexivity|]. intros H. lia.
Qed.

(* ================================================================= *)
(** * Substring tests and the blob name *)
(* ================================================================= *)

Lemma substring_app_middle pre : forall t post,
  substring (String.length pre) (String.length t) (pre ++ t ++ post) = t.
Proof.
  induction pre as [|c pre IH]; intros t post; simpl.
  - induction t as [|a t IHt]; simpl.
    + destruct post; reflexivity.
    + now rewrite IHt.
  - apply IH.
Qed.

Lemma substring_0_split t : forall s,
  substring 0 (String.length t) s = t -> exists post, s = (t ++ post)%string.
Proof.
  induction t as [|a t IH]; intros s H; simpl in *.
  - exists s. reflexivity.
  - destruct s as [|b s]; [discriminate|]. inversion H; subst.
    match goal with H' : substring 0 _ _ = t |- _ => rename H' into Ht end.
    destruct (IH s Ht) as [post E]. exists post. rewrite Ht. now rewrite <- E.
Qed.

Lemma substring_split m : forall s t,
  substring m (String.length t) s = t ->
  exists pre post, s = (pre ++ t ++ post)%string.
Proof.
  induction m as [|m IH]; intros s t H.
  - destruct (substring_0_split t s H) as [post E]. exists EmptyString, post. exact E.
  - destruct s as [|c s]; simpl in H.
    + exists EmptyString, EmptyString. rewrite <- H. reflexivity.
    + destruct (IH s t H) as [pre [post E]].
      exists (String c pre), post. simpl. now rewrite <- E.
Qed.

(** [contains] is the substring test. *)
Lemma contains_spec sub s :
  sub <> EmptyString ->
  (contains sub s = true <-> exists pre post, s = (pre ++ sub ++ post)%string).
Proof.
  intros Hne. unfold contains. split.
  - destruct (index 0 sub s) as [m|] eqn:E; [|discriminate]. intros _.
    apply index_correct1 in E. eapply substring_split; eauto.
  - intros [pre [post ->]].
    destruct (index 0 sub (pre ++ sub ++ post)) as [m|] eqn:E; auto.
    exfalso.
    apply (index_correct3 0 (String.length pre) sub _ E Hne (Nat.le_0_l _)).
    apply substring_app_middle.
Qed.

Lemma has_slash_app a b : has_slash (a ++ b) = has_slash a || has_slash b.
Proof.
  induction a as [|c a IH]; simpl; auto. rewrite IH. apply orb_assoc.
Qed.

Lemma after_first_slash_app c b :
  has_slash c = false -> after_first_slash (c ++ String "/" b) = b.
Proof.
  induction c as [|a c IH]; simpl; auto.
  intros H. apply orb_false_iff in H. destruct H as [H1 H2].
  rewrite H1. auto.
Qed.

(** X23. The blob name that is signed leaves out the first segment of
    the URL path, whatever it is: for a path [/<container>/<blob>] it
    is [<blob>], slashes of [<blob>] included, and the segment is not
    compared with the configured container; a path of one segment is
    taken whole. *)
Theorem blob_name_drops_first_segment :
  forall (urlparse_path : string -> string) url segment,
    segment <> EmptyString ->
    has_slash segment = false ->
    (forall blob,
       urlparse_path url = ("/" ++ segment ++ "/" ++ blob)%string ->
       blob_name_of urlparse_path url = blob) /\
    (urlparse_path url = ("/" ++ segment)%string ->
     blob_name_of urlparse_path url = segment).
Proof.
  intros up url segment Hne Hns.
  assert (Hl : forall rest, lstrip_slash (String "/" (segment ++ rest)) =
                            (segment ++ rest)%string).
  { intros rest. destruct segment as [|a seg]; [congruence|].
    simpl in *. apply orb_false_iff in Hns. destruct Hns as [Ha _].
    now rewrite Ha. }
  split.
  - intros blob Hp. unfold blob_name_of. rewrite Hp.
    change ("/" ++ segment ++ "/" ++ blob)%string
      with (String "/" (segment ++ String "/" blob)).
    rewrite Hl.
    assert (C : contains "/" (segment ++ String "/" blob) = true).
    { apply contains_spec; [discriminate|]. exists segment, blob. reflexivity. }
    rewrite C. now apply after_first_slash_app.
  - intros Hp. unfold blob_name_of. rewrite Hp.
    change ("/" ++ segment)%string with (String "/" segment).
    specialize (Hl EmptyString).
    assert (A : forall x : string, (x ++ "")%string = x)
      by (induction x as [|c x IH]; simpl; congruence).
    rewrite A in Hl. rewrite Hl.
    destruct (contains "/" segment) eqn:C; auto.
    exfalso. apply contains_spec in C; [|discriminate].
    destruct C as [pre [post E]]. rewrite E in Hns.
    rewrite has_slash_app in Hns. simpl in Hns.
    rewrite orb_true_r in Hns. discriminate.
Qed.

Lemma blob_name_drops_first_segment_witness :
  (forall blob,
     sample_urlparse_path "https://acct.blob.core.windows.net/other/photos/a.jpg" =
       ("/" ++ "other" ++ "/" ++ blob)%string ->
     blob_name_of sample_urlparse_path
                  "https://acct.blob.core.windows.net/other/photos/a.jpg" = blob) /\
  (sample_urlparse_path "https://acct.blob.core.windows.net/other/photos/a.jpg" =
     ("/" ++ "other")%string ->
   blob_name_of sample_urlparse_path
                "https://acct.blob.core.windows.net/other/photos/a.jpg" = "other"%string).
Proof.
  apply (blob_name_drops_first_segment sample_urlparse_path
           "https://acct.blob.core.windows.net/other/photos/a.jpg" "other").
  - discriminate.
  - reflexivity.
Defined.

(** X24. The serializers decide on the text of the whole URL: an image
    URL is signed exactly when [blob.core.windows.net] occurs somewhere
    in it, in the host or anywhere else, and is returned as it is
    otherwise. *)
Theorem get_image_signs_on_substring :
  forall acc cont key up sdk obj utcnow url,
    image obj = Some url ->
    ((exists pre post, url = (pre ++ "blob.core.windows.net" ++ post)%string) ->
     PhotoDetailSerializer_get_image acc cont key up sdk obj utcnow =
       Some (url ++ "?" ++ sdk (sas_arguments acc cont key up url utcnow))%string) /\
    (~ (exists pre post, url = (pre ++ "blob.core.windows.net" ++ post)%string) ->
     PhotoDetailSerializer_get_image acc cont key up sdk obj utcnow = Some url).
Proof.
  intros acc cont key up sdk obj utcnow url Himg.
  unfold PhotoDetailSerializer_get_image. rewrite Himg.
  pose proof (contains_spec "blob.core.windows.net" url ltac:(discriminate)) as S.
  split; intros H.
  - apply S in H. rewrite H. reflexivity.
  - destruct (contains "blob.core.windows.net" url) eqn:C; auto.
    exfalso. apply H. now apply S.
Qed.

Lemma get_image_signs_on_substring_witness :
  ((exists pre post,
      "https://cdn.example.com/a.jpg?from=blob.core.windows.net"%string =
      (pre ++ "blob.core.windows.net" ++ post)%string) ->
   PhotoDetailSerializer_get_image "acct" "media" "k3y" sample_urlparse_path
     sample_generate_blob_sas lookalike_photo 1000 =
     Some ("https://cdn.example.com/a.jpg?from=blob.core.windows.net" ++ "?" ++
           sample_generate_blob_sas
             (sas_arguments "acct" "media" "k3y" sample_urlparse_path
                "https://cdn.example.com/a.jpg?from=blob.core.windows.net" 1000))%string) /\
  (~ (exists pre post,
        "https://cdn.example.com/a.jpg?from=blob.core.windows.net"%string =
        (pre ++ "blob.core.windows.net" ++ post)%string) ->
   PhotoDetailSerializer_get_image "acct" "media" "k3y" sample_urlparse_path
     sample_generate_blob_sas lookalike_photo 1000 =
     Some "https://cdn.example.com/a.jpg?from=blob.core.windows.net"%string).
Proof.
  apply (get_image_signs_on_substring "acct" "media" "k3y" sample_urlparse_path
           sample_generate_blob_sas lookalike_photo 1000
           "https://cdn.example.com/a.jpg?from=blob.core.windows.net"%string).
  reflexivity.
Defined.

(* ================================================================= *)
(** * Photo.save: a free slug *)
(* ================================================================= *)

Lemma slug_exists_In slugs slug : slug_exists slugs slug = true <-> In slug slugs.
Proof.
  unfold slug_exists. rewrite existsb_exists. split.
  - intros [x [Hx E]]. apply String.eqb_eq in E. now subst.
  - intros H. exists slug. split; auto. apply String.eqb_refl.
Qed.

Lemma append_inj_l a : forall b c : string, (a ++ b)%string = (a ++ c)%string -> b = c.
Proof.
  induction a as [|x a IH]; simpl; intros b c H; auto.
  inversion H. auto.
Qed.

Lemma to_uint_nonnil n : Nat.to_uint n <> Decimal.Nil.
Proof.
  rewrite <- (DecimalNat.Unsigned.of_to n) at 1.
  rewrite DecimalNat.Unsigned.to_of. apply DecimalFacts.unorm_nonnil.
Qed.

Lemma numbered_slug_inj base j k :
  numbered_slug base j = numbered_slug base k -> j = k.
Proof.
  unfold numbered_slug. intros H.
  apply append_inj_l in H. simpl in H. inversion H as [H'].
  apply DecimalNat.Unsigned.to_uint_inj.
  assert (E : Some (Nat.to_uint j) = Some (Nat.to_uint k)).
  { rewrite <- (NilZero.usu _ (to_uint_nonnil j)),
            <- (NilZero.usu _ (to_uint_nonnil k)).
    now rewrite H'. }
  now inversion E.
Qed.

Lemma slug_candidate_inj base j k :
  slug_candidate base j = slug_candidate base k -> j = k.
Proof.
  assert (N : forall m, base <> numbered_slug base m).
  { intros m H. unfold numbered_slug in H.
    assert (L : String.length base =
                String.length (base ++ "-" ++ NilZero.string_of_uint (Nat.to_uint m)))
      by (now rewrite <- H).
    rewrite string_length_append in L. simpl in L. lia. }
  destruct j as [|j], k as [|k]; cbn [slug_candidate]; intros H; auto.
  - exfalso. exact (N _ H).
  - exfalso. symmetry in H. exact (N _ H).
  - exact (numbered_slug_inj base _ _ H).
Qed.

(** The loop stops at the first candidate that is free, or runs out of
    fuel with every candidate it tried taken. *)
Lemma slug_loop_spec slugs base : forall fuel k,
  (forall j, (j < k)%nat -> slug_exists slugs (slug_candidate base j) = true) ->
  (exists m, (k <= m < k + fuel)%nat /\
             slug_loop fuel slugs base (slug_candidate base k) (S k) =
               Some (slug_candidate base m) /\
             slug_exists slugs (slug_candidate base m) = false /\
             forall j, (j < m)%nat -> slug_exists slugs (slug_candidate base j) = true) \/
  (slug_loop fuel slugs base (slug_candidate base k) (S k) = None /\
   forall j, (j < k + fuel)%nat -> slug_exists slugs (slug_candidate base j) = true).
Proof.
  induction fuel as [|fuel IH]; intros k Hk.
  - right. simpl. split; auto. intros j Hj. apply Hk. lia.
  - cbn [slug_loop].
    destruct (slug_exists slugs (slug_candidate base k)) eqn:E.
    + change (numbered_slug base (S k)) with (slug_candidate base (S k)).
      destruct (IH (S k)) as [[m [Hm [H1 [H2 H3]]]]|[H1 H2]].
      * intros j Hj. destruct (Nat.eq_dec j k) as [->|Hne]; auto. apply Hk. lia.
      * left. exists m. repeat split; auto; lia.
      * right. split; auto. intros j Hj. apply H2. lia.
    + left. exists k. repeat split; auto; lia.
Qed.

(** X25. [Photo.save] always finds a slug for a photo that has none,
    and it is one no photo has: the slugified title when that is free,
    otherwise [<base>-<k>] for the smallest [k >= 1] whose slug is
    free; [k] is never larger than the number of slugs in the table. *)
Theorem new_slug_is_free :
  forall slugs base,
    exists k,
      (k <= length slugs)%nat /\
      new_slug slugs base = Some (slug_candidate base k) /\
      ~ In (slug_candidate base k) slugs /\
      forall j, (j < k)%nat -> In (slug_candidate base j) slugs.
Proof.
  intros slugs base. unfold new_slug.
  change base with (slug_candidate base 0) at 2.
  destruct (slug_loop_spec slugs base (S (length slugs)) 0)
    as [[m [Hm [H1 [H2 H3]]]]|[_ H]].
  - intros j Hj. lia.
  - exists m. split; [lia|]. split; auto. split.
    + intros Hin. apply slug_exists_In in Hin. congruence.
    + intros j Hj. apply slug_exists_In. auto.
  - exfalso.
    assert (Hnd : NoDup (map (slug_candidate base) (seq 0 (S (length slugs))))).
    { apply Finite.Injective_map_NoDup; [|apply seq_NoDup].
      intros a b. apply (slug_candidate_inj base). }
    assert (Hincl : incl (map (slug_candidate base) (seq 0 (S (length slugs)))) slugs).
    { intros x Hx. apply in_map_iff in Hx. destruct Hx as [j [<- Hj]].
      apply in_seq in Hj. apply slug_exists_In. apply H. lia. }
    pose proof (NoDup_incl_length Hnd Hincl) as L.
    rewrite length_map, length_seq in L. lia.
Qed.

(* ================================================================= *)
(** * Listings and counts *)
(* ================================================================= *)

(** X26. The rating list filtered by both [photo] and [user] holds at
    most one rating when the table has at most one rating per photo
    and user, and the rating it holds is the one the photo detail
    shows to that user as [user_rating]. *)
Theorem rating_queryset_of_pair :
  forall db pk u obj,
    unique_together db ->
    photo_id obj = pk ->
    (length (RatingViewSet_get_queryset db (Some pk) (Some (user_id u))) <= 1)%nat /\
    (forall r,
       In r (RatingViewSet_get_queryset db (Some pk) (Some (user_id u))) ->
       get_user_rating db obj (Some u) = user_rating_score (score r)).
Proof.
  intros db pk u obj Hu Hobj.
  assert (E : RatingViewSet_get_queryset db (Some pk) (Some (user_id u)) =
              ratings_by db (user_id u) pk).
  { unfold RatingViewSet_get_queryset, ratings_by. apply filter_filter_andb. }
  rewrite E. split; [apply Hu|].
  intros r Hr. unfold get_user_rating. rewrite Hobj.
  specialize (Hu (user_id u) pk).
  destruct (ratings_by db (user_id u) pk) as [|a [|b l]]; simpl in *.
  - tauto.
  - destruct Hr as [->|[]]. reflexivity.
  - lia.
Qed.

Lemma rating_queryset_of_pair_witness :
  let db := fst (rate_photo sample_db (Some sample_user) 100 (Some 1) (Some 5)) in
  (length (RatingViewSet_get_queryset db (Some 1%Z) (Some (user_id sample_user))) <= 1)%nat /\
  (forall r,
     In r (RatingViewSet_get_queryset db (Some 1) (Some (user_id sample_user))) ->
     get_user_rating db sample_photo (Some sample_user) = user_rating_score (score r)).
Proof.
  apply (rating_queryset_of_pair
           (fst (rate_photo sample_db (Some sample_user) 100 (Some 1) (Some 5)))
           1 sample_user sample_photo).
  - intros u pk. unfold ratings_by.
    replace (ratings (fst (rate_photo sample_db (Some sample_user) 100
                             (Some 1) (Some 5))))
      with [mkRating 100 1 7 5] by (vm_compute; reflexivity).
    simpl. destruct (rated_by u pk (mkRating 100 1 7 5)); simpl; lia.
  - reflexivity.
Defined.

(** X27. The two user serializers count photos differently: the
    detail serializer counts the user's published photos only, so its
    [photo_count] never exceeds the one of the basic serializer, and
    the two agree exactly when the user has no unpublished photo. *)
Theorem photo_counts_differ_by_unpublished :
  forall db obj,
    (UserDetailSerializer_get_photo_count db obj <=
     UserSerializer_get_photo_count db obj)%nat /\
    (UserDetailSerializer_get_photo_count db obj =
     UserSerializer_get_photo_count db obj <->
     forall p, In p (photos db) -> creator p = user_id obj -> is_published p = true).
Proof.
  intros db obj.
  unfold UserDetailSerializer_get_photo_count, UserSerializer_get_photo_count.
  set (l := filter (fun p => creator p =? user_id obj) (photos db)).
  assert (H : (length (filter is_published l) <= length l)%nat /\
              (length (filter is_published l) = length l <->
               forall p, In p l -> is_published p = true)).
  { clear. induction l as [|a l [IH1 IH2]]; simpl.
    - split; auto. split; auto.
    - destruct (is_published a) eqn:E; simpl.
      + split; [lia|]. split.
        * intros H p [<-|Hp]; auto. apply IH2; auto.
        * intros H. f_equal. apply IH2. intros p Hp. apply H. auto.
      + split; [lia|]. split.
        * intros H. lia.
        * intros H. specialize (H a (or_introl eq_refl)). congruence. }
  destruct H as [H1 H2]. split; auto.
  rewrite H2. subst l. split.
  - intros H p Hp Hc. apply H. apply filter_In. split; auto. now apply Z.eqb_eq.
  - intros H p Hp. apply filter_In in Hp. destruct Hp as [Hp Hc].
    apply Z.eqb_eq in Hc. auto.
Qed.

(* ================================================================= *)
(** * Uploads *)
(* ================================================================= *)

Lemma last_segment_dot_free s : has_dot s = false -> last_segment s = s.
Proof.
  destruct s as [|c r]; simpl; auto.
  intros H. apply orb_false_iff in H. destruct H as [H1 H2].
  now rewrite H1, H2.
Qed.

Lemma has_dot_app a b : has_dot (a ++ b) = has_dot a || has_dot b.
Proof.
  induction a as [|c a IH]; simpl; auto. rewrite IH. apply orb_assoc.
Qed.

Lemma last_segment_app stem ext :
  has_dot ext = false -> last_segment (stem ++ String "." ext) = ext.
Proof.
  intros H. induction stem as [|c stem IH]; simpl.
  - now apply last_segment_dot_free.
  - rewrite has_dot_app. simpl. rewrite orb_true_r.
    destruct (Ascii.eqb c "."); exact IH.
Qed.

(** X28. [validate_image] looks at the text after the last dot of the
    file name, whatever the case of its letters A to Z: a file named
    [<stem>.<ext>], with no dot in [<ext>], is accepted exactly when it
    is not larger than 10 MiB and [<ext>] in lower case is one of jpg,
    jpeg, png, gif and webp; a larger file is refused for its size
    before its name is looked at. *)
Theorem validate_image_by_last_extension :
  forall stem ext size,
    has_dot ext = false ->
    (validate_image (stem ++ "." ++ ext) size = image_accepted <->
     size <= 10485760 /\ In (lower ext) allowed_extensions) /\
    (10485760 < size -> validate_image (stem ++ "." ++ ext) size = image_too_large).
Proof.
  intros stem ext size Hext. unfold validate_image.
  change (stem ++ "." ++ ext)%string with (stem ++ String "." ext)%string.
  rewrite (last_segment_app stem ext Hext).
  change (10 * 1024 * 1024) with 10485760.
  destruct (10485760 <? size) eqn:E.
  - apply Z.ltb_lt in E. split; [|reflexivity].
    split; [discriminate|]. intros [H _]. lia.
  - apply Z.ltb_ge in E. split; [|intros H; lia].
    destruct (existsb (String.eqb (lower ext)) allowed_extensions) eqn:X.
    + split; [|reflexivity]. intros _. split; auto.
      apply existsb_exists in X. destruct X as [x [Hx Hx']].
      apply String.eqb_eq in Hx'. now subst.
    + split; [discriminate|]. intros [_ H]. exfalso.
      assert (X' : existsb (String.eqb (lower ext)) allowed_extensions = true).
      { apply existsb_exists. exists (lower ext). split; auto. apply String.eqb_refl. }
      congruence.
Qed.

Lemma validate_image_by_last_extension_witness :
  (validate_image ("holiday.2024" ++ "." ++ "JPG") 2048 = image_accepted <->
   2048 <= 10485760 /\ In (lower "JPG") allowed_extensions) /\
  (10485760 < 2048 ->
   validate_image ("holiday.2024" ++ "." ++ "JPG") 2048 = image_too_large).
Proof.
  apply (validate_image_by_last_extension "holiday.2024" "JPG" 2048).
  reflexivity.
Defined.
